(** * The WebSocket game server of [websocket_server.js]

    A shallow embedding of the per-connection session logic of
    [src/pr32_websocket_link/websocket_server.js]: the [clients] map, the
    handlers registered on every socket ([message], [close], [error]), the
    [endGame] closure run by the inactivity timer, and the event loop that
    interleaves them.

    Modelling choices, all taken from the source:

    - Coordinates are JavaScript numbers that only ever hold integers
      (they start at 0 and change by [+= 1] / [-= 1]); they are modelled
      as [Z].
    - [Math.sqrt(..).toFixed(2)] is kept symbolic: a [Distance] records the
      integer radicand the square root is taken of.
    - [ws.send], [logger.*] and [insertOne] are recorded as effects, in the
      order the handler performs them.  Whether a call to [ws.send] throws,
      whether [insertOne] throws or rejects, and the clock readings are
      inputs of the event that runs the handler.
    - The message handler is an [async] function with one suspension point,
      [await movementsCollection.insertOne(..)].  The part before it and
      the part after it are separate steps of the event loop, and any other
      event (another message, a timer, a close) may run in between.
    - A client-state object is shared by reference between the [clients]
      map and the closures of suspended handlers.  The world therefore
      keeps the objects in a store of their own ([objects]) next to the
      set of keys currently in the map ([clients]). *)

From Stdlib Require Import ZArith String.
From stdpp Require Import gmap strings list fin_maps.

Local Open Scope Z_scope.
#[local] Set Warnings "-clear-no-such-hyp".

(** ** Data model *)

(** Sockets and timeouts are JavaScript objects; only their identity matters. *)
Abbreviation Conn := nat (only parsing).
Abbreviation TimerId := nat (only parsing).

Record Position := mkPosition { x : Z; y : Z }.

(** [{ x: 0, y: 0 }] *)
Definition origin : Position := mkPosition 0 0.

(** The template string [`G_${now}_${cId.substring(0, 4)}`].  It is never
    empty, so [!clientState.currentGameId] holds exactly when the field is
    [null]. *)
Record GameId := mkGameId { gid_now : Z; gid_prefix : string }.

(** The value stored by [clients.set(ws, {...})]. *)
Record ClientState := mkClientState {
  clientId : string;
  currentGameId : option GameId;
  startPosition : option Position;
  currentPosition : Position;
  lastPosition : option Position;
  lastMoveTime : option Z;
  inactivityTimer : option TimerId;
  gameStartTime : option Z
}.

(** What [JSON.parse] can return. *)
#[local] Unset Elimination Schemes.
Inductive json :=
| JNull
| JBool (b : bool)
| JNumber (literal : string)
| JString (s : string)
| JArray (items : list json)
| JObject (fields : list (string * json)).
#[local] Set Elimination Schemes.

(** [Math.sqrt(radicand).toFixed(2)] *)
Inductive Distance := SqrtFixed2 (radicand : Z).

Inductive ErrorText :=
| UnknownCommandText (command : string)   (* `Comando no reconocido: ${command}` *)
| ProcessingErrorText.                    (* 'Ocurrió un error procesando tu comando.' *)

(** The objects passed to [JSON.stringify] for [ws.send]. *)
Inductive OutMsg :=
| InitialState (mx my : Z)
| PositionUpdate (mx my : Z)
| GameOver (gameId : GameId) (distance : Distance) (startTime : option Z) (endTime : Z)
| ErrorMsg (message : ErrorText).

(** The document handed to [movementsCollection.insertOne]. *)
Record MovementData := mkMovementData {
  md_gameId : option GameId;
  md_clientId : string;
  md_command : string;
  md_x : Z;
  md_y : Z;
  md_timestamp : Z
}.

Inductive Level := Info | Warn | Err.

(** One constructor per [logger] call of the connection handlers. *)
Inductive LogSite :=
| NewClient | InitialStateSendFailed
| GameFinished | GameFinishedJustStarted | GameFinishedNoStart
| GameOverSendFailed | ResetSendFailed
| UnregisteredMessage | CommandReceived | NewGame | UnknownCommand
| UnknownCommandSendFailed | CollectionNotInitialised | SaveFailed
| PositionSent | PositionSendFailed | InactivityDetected
| ProcessingError | ProcessingErrorSendFailed
| Disconnected | UnregisteredDisconnected | SocketError
| DbReady.

Inductive Effect :=
| Send (ws : Conn) (m : OutMsg)        (* a call [ws.send(JSON.stringify(m))] *)
| Log (lvl : Level) (site : LogSite)   (* a call [logger.<lvl>(..)] *)
| InsertOne (doc : MovementData).      (* a call [movementsCollection.insertOne(doc)] *)

(** A message handler suspended at [await insertOne(..)]: the variables its
    continuation still reads.  [clientState] is the object of [k_ws]. *)
Record Continuation := mkContinuation {
  k_ws : Conn;
  k_newPosition : Position
}.

Record World := mkWorld {
  objects : gmap Conn ClientState;   (* the client-state objects, by socket *)
  clients : gset Conn;               (* the keys of the [clients] Map *)
  timers : gmap TimerId Conn;        (* pending timeouts and the [ws] of their callback *)
  nextTimer : TimerId;               (* timeouts created so far *)
  suspended : list Continuation;     (* handlers awaiting [insertOne] *)
  movementsCollection : bool         (* is the module variable set? *)
}.

(** The state of the module once loaded: [clients = new Map()], no timer,
    [movementsCollection] still undefined. *)
Definition initial_world : World :=
  mkWorld ∅ ∅ ∅ 0%nat [] false.

(** ** Store access *)

(** [clients.get(ws)] *)
Definition clients_get (w : World) (ws : Conn) : option ClientState :=
  if decide (ws ∈ clients w) then objects w !! ws else None.

Definition set_object (ws : Conn) (st : ClientState) (w : World) : World :=
  mkWorld (<[ws := st]> (objects w)) (clients w) (timers w) (nextTimer w)
          (suspended w) (movementsCollection w).

(** [clients.delete(ws)] *)
Definition clients_delete (ws : Conn) (w : World) : World :=
  mkWorld (objects w) (clients w ∖ {[ws]}) (timers w) (nextTimer w)
          (suspended w) (movementsCollection w).

(** [clearTimeout(t)]; a no-op on [null] and on a timeout no longer pending. *)
Definition clearTimeout (t : option TimerId) (w : World) : World :=
  match t with
  | None => w
  | Some t =>
      mkWorld (objects w) (clients w) (delete t (timers w)) (nextTimer w)
              (suspended w) (movementsCollection w)
  end.

(** [setTimeout(() => { logger.warn(..); endGame(ws); }, INACTIVITY_TIMEOUT)] *)
Definition setTimeout (ws : Conn) (w : World) : World * TimerId :=
  (mkWorld (objects w) (clients w) (<[nextTimer w := ws]> (timers w))
           (S (nextTimer w)) (suspended w) (movementsCollection w),
   nextTimer w).

Definition set_suspended (l : list Continuation) (w : World) : World :=
  mkWorld (objects w) (clients w) (timers w) (nextTimer w) l
          (movementsCollection w).

Definition set_inactivityTimer (t : option TimerId) (st : ClientState) : ClientState :=
  mkClientState (clientId st) (currentGameId st) (startPosition st)
                (currentPosition st) (lastPosition st) (lastMoveTime st)
                t (gameStartTime st).

(** [try { ws.send(JSON.stringify(m)); } catch (sendError) { logger.error(..) }] *)
Definition trySend (sendThrows : OutMsg → bool) (ws : Conn) (m : OutMsg)
    (site : LogSite) : list Effect :=
  Send ws m :: (if sendThrows m then [Log Err site] else []).

(** ** [wss.on('connection', ..)] *)

Definition new_client (uuid : string) : ClientState :=
  mkClientState uuid None None origin None None None None.

Definition onConnection (sendThrows : OutMsg → bool) (ws : Conn) (uuid : string)
    (w : World) : World * list Effect :=
  let w1 := mkWorld (<[ws := new_client uuid]> (objects w)) ({[ws]} ∪ clients w)
                    (timers w) (nextTimer w) (suspended w) (movementsCollection w) in
  (w1, Log Info NewClient
       :: trySend sendThrows ws (InitialState 0 0) InitialStateSendFailed).

(** ** [endGame] *)

Definition squared_distance (a b : Position) : Z :=
  (x b - x a) ^ 2 + (y b - y a) ^ 2.

Definition endGame (sendThrows : OutMsg → bool) (endTime : Z) (wsClient : Conn)
    (w : World) : World * list Effect :=
  match clients_get w wsClient with
  | None => (w, [])
  | Some clientState =>
      match currentGameId clientState with
      | None => (w, [])
      | Some gid =>
          let w1 := clearTimeout (inactivityTimer clientState) w in
          let '(distance, logs) :=
            match startPosition clientState, lastPosition clientState with
            | Some sp, Some lp =>
                (SqrtFixed2 (squared_distance sp lp), [Log Info GameFinished])
            | Some _, None => (SqrtFixed2 0, [Log Info GameFinishedJustStarted])
            | None, _ => (SqrtFixed2 0, [Log Warn GameFinishedNoStart])
            end in
          let summary := GameOver gid distance (gameStartTime clientState) endTime in
          let cleared :=
            mkClientState (clientId clientState) None None origin None None None None in
          (set_object wsClient cleared w1,
           logs
           ++ trySend sendThrows wsClient summary GameOverSendFailed
           ++ trySend sendThrows wsClient
                (PositionUpdate (x (currentPosition cleared)) (y (currentPosition cleared)))
                ResetSendFailed)
      end
  end.

(** ** [ws.on('message', ..)] *)

Inductive Thrown := SyntaxError | TypeError | InvalidFormat.

(** The own property [k] of a parsed object; on duplicate keys [JSON.parse]
    keeps the last one. *)
Definition own_property (k : string) (fields : list (string * json)) : option json :=
  fold_left (fun acc kv => if String.eqb (fst kv) k then Some (snd kv) else acc)
            fields None.

(** [data.command], for [data] a result of [JSON.parse]: a [TypeError] on
    [null], [undefined] on the other non-objects and on arrays. *)
Definition data_command (data : json) : Thrown + option json :=
  match data with
  | JNull => inl TypeError
  | JObject fields => inr (own_property "command" fields)
  | _ => inr None
  end.

(** Lines 135-140: [raw] is the outcome of [JSON.parse(message.toString())],
    [None] when it throws. *)
Definition parse_command (raw : option json) : Thrown + string :=
  match raw with
  | None => inl SyntaxError
  | Some data =>
      match data_command data with
      | inl e => inl e
      | inr (Some (JString command)) => inr command
      | inr _ => inl InvalidFormat
      end
  end.

(** The [switch (command)] on a copy of [currentPosition]; [None] is the
    [default] branch. *)
Definition move (command : string) (p : Position) : option Position :=
  if String.eqb command "up" then Some (mkPosition (x p) (y p + 1))
  else if String.eqb command "down" then Some (mkPosition (x p) (y p - 1))
  else if String.eqb command "left" then Some (mkPosition (x p - 1) (y p))
  else if String.eqb command "right" then Some (mkPosition (x p + 1) (y p))
  else None.

(** Lines 145-150. *)
Definition open_session (now currentTime : Z) (st : ClientState)
    : ClientState * list Effect :=
  match currentGameId st with
  | None =>
      (mkClientState (clientId st)
         (Some (mkGameId now (substring 0 4 (clientId st))))
         (Some (currentPosition st)) (currentPosition st) (lastPosition st)
         (lastMoveTime st) (inactivityTimer st) (Some currentTime),
       [Log Info NewGame])
  | Some _ => (st, [])
  end.

(** Lines 176-178. *)
Definition record_move (now : Z) (newPosition : Position) (st : ClientState)
    : ClientState :=
  mkClientState (clientId st) (currentGameId st) (startPosition st)
                newPosition (Some newPosition) (Some now)
                (inactivityTimer st) (gameStartTime st).

(** Lines 199-214, run once the persistence [try] block is left without
    [return]: the reply, then cancel-and-rearm on the captured object.  The
    closure always holds its object ([wf_suspended] below); the [None]
    branch only makes the function total. *)
Definition finishMove (sendThrows : OutMsg → bool) (k : Continuation)
    (w : World) : World * list Effect :=
  let ws := k_ws k in
  let newPosition := k_newPosition k in
  let reply := PositionUpdate (x newPosition) (y newPosition) in
  let sent :=
    Send ws reply
    :: (if sendThrows reply then [Log Err PositionSendFailed]
        else [Log Info PositionSent]) in
  match objects w !! ws with
  | None => (w, sent)
  | Some clientState =>
      let w1 := clearTimeout (inactivityTimer clientState) w in
      let '(w2, t) := setTimeout ws w1 in
      (set_object ws (set_inactivityTimer (Some t) clientState) w2, sent)
  end.

Definition onMessage (sendThrows : OutMsg → bool) (now currentTime : Z)
    (insertOneThrows : bool) (ws : Conn) (raw : option json) (w : World)
    : World * list Effect :=
  match clients_get w ws with
  | None => (w, [Log Err UnregisteredMessage])
  | Some clientState =>
      match parse_command raw with
      | inl _ =>
          (w, Log Err ProcessingError
              :: trySend sendThrows ws (ErrorMsg ProcessingErrorText)
                   ProcessingErrorSendFailed)
      | inr command =>
          let '(opened, logOpen) := open_session now currentTime clientState in
          let pre := Log Info CommandReceived :: logOpen in
          match move command (currentPosition opened) with
          | None =>
              (set_object ws opened w,
               pre ++ Log Warn UnknownCommand
                   :: trySend sendThrows ws (ErrorMsg (UnknownCommandText command))
                        UnknownCommandSendFailed)
          | Some newPosition =>
              let moved := record_move now newPosition opened in
              let w1 := set_object ws moved w in
              let movementData :=
                mkMovementData (currentGameId moved) (clientId clientState) command
                               (x newPosition) (y newPosition) currentTime in
              let k := mkContinuation ws newPosition in
              if negb (movementsCollection w) then
                (w1, pre ++ [Log Err CollectionNotInitialised])
              else if insertOneThrows then
                let '(w2, out) := finishMove sendThrows k w1 in
                (w2, pre ++ InsertOne movementData :: Log Err SaveFailed :: out)
              else
                (set_suspended (suspended w1 ++ [k]) w1,
                 pre ++ [InsertOne movementData])
          end
      end
  end.

(** The promise returned by [insertOne] settles and the [i]-th suspended
    handler resumes after its [await]. *)
Definition onInsertSettled (sendThrows : OutMsg → bool) (rejected : bool)
    (i : nat) (w : World) : option (World * list Effect) :=
  match suspended w !! i with
  | None => None
  | Some k =>
      let '(w1, out) := finishMove sendThrows k (set_suspended (delete i (suspended w)) w) in
      Some (w1, (if rejected then [Log Err SaveFailed] else []) ++ out)
  end.

(** The callback given to [setTimeout] on line 211. *)
Definition onTimer (sendThrows : OutMsg → bool) (endTime : Z) (t : TimerId)
    (w : World) : option (World * list Effect) :=
  match timers w !! t with
  | None => None
  | Some ws =>
      let '(w1, out) := endGame sendThrows endTime ws (clearTimeout (Some t) w) in
      Some (w1, Log Warn InactivityDetected :: out)
  end.

(** ** [ws.on('close', ..)] and [ws.on('error', ..)] *)

Definition onClose (ws : Conn) (w : World) : World * list Effect :=
  match clients_get w ws with
  | Some clientState =>
      (clients_delete ws (clearTimeout (inactivityTimer clientState) w),
       [Log Info Disconnected])
  | None => (w, [Log Warn UnregisteredDisconnected])
  end.

Definition onError (ws : Conn) (w : World) : World * list Effect :=
  match clients_get w ws with
  | Some clientState =>
      (clients_delete ws (clearTimeout (inactivityTimer clientState) w),
       [Log Err SocketError])
  | None => (w, [Log Err SocketError])
  end.

(** ** The event loop *)

(** What the runtime can deliver.  Every event carries the readings its
    handler takes from outside: whether a given [ws.send] throws, the
    clock, the outcome of [insertOne]. *)
Inductive Event :=
| Connection (ws : Conn) (uuid : string) (sendThrows : OutMsg → bool)
| Message (ws : Conn) (raw : option json) (now currentTime : Z)
          (insertOneThrows : bool) (sendThrows : OutMsg → bool)
| InsertSettled (i : nat) (rejected : bool) (sendThrows : OutMsg → bool)
| TimerFires (t : TimerId) (endTime : Z) (sendThrows : OutMsg → bool)
| Close (ws : Conn)
| SocketErrors (ws : Conn)
| DbConnected.

(** One turn of the event loop; [None] when the event cannot occur in [w]
    (a socket connecting twice, a timeout that is not pending, a promise
    nobody awaits). *)
Definition step (w : World) (ev : Event) : option (World * list Effect) :=
  match ev with
  | Connection ws uuid sendThrows =>
      match objects w !! ws with
      | Some _ => None
      | None => Some (onConnection sendThrows ws uuid w)
      end
  | Message ws raw now currentTime insertOneThrows sendThrows =>
      Some (onMessage sendThrows now currentTime insertOneThrows ws raw w)
  | InsertSettled i rejected sendThrows => onInsertSettled sendThrows rejected i w
  | TimerFires t endTime sendThrows => onTimer sendThrows endTime t w
  | Close ws => Some (onClose ws w)
  | SocketErrors ws => Some (onError ws w)
  | DbConnected =>
      Some (mkWorld (objects w) (clients w) (timers w) (nextTimer w)
                    (suspended w) true,
            [Log Info DbReady])
  end.

Fixpoint run (w : World) (evs : list Event) : option (World * list Effect) :=
  match evs with
  | [] => Some (w, [])
  | ev :: evs' =>
      match step w ev with
      | None => None
      | Some (w1, out1) =>
          match run w1 evs' with
          | None => None
          | Some (w2, out2) => Some (w2, out1 ++ out2)
          end
      end
  end.

(** The worlds the server can be in. *)
Definition reachable (w : World) : Prop :=
  ∃ evs out, run initial_world evs = Some (w, out).

(** ** Well-formed worlds

    The invariant of the event loop: every key of [clients] has its object,
    every pending timeout is the one recorded in the object of the socket
    it will end the game of, recorded timeouts were created in the past,
    and suspended handlers hold an existing object. *)

Record wf (w : World) : Prop := mkWf {
  wf_clients : ∀ ws : Conn, ws ∈ clients w → is_Some (objects w !! ws);
  wf_owner : ∀ (t : TimerId) (ws : Conn), timers w !! t = Some ws →
      ∃ st, objects w !! ws = Some st ∧ inactivityTimer st = Some t;
  wf_fresh : ∀ (ws : Conn) st (t : TimerId), objects w !! ws = Some st →
      inactivityTimer st = Some t → (t < nextTimer w)%nat;
  wf_suspended : ∀ k, k ∈ suspended w → is_Some (objects w !! k_ws k)
}.

(** ** Observations on effect traces *)

(** The messages handed to [ws.send], in order, with their socket. *)
Definition sent (out : list Effect) : list (Conn * OutMsg) :=
  omap (λ e, match e with Send ws m => Some (ws, m) | _ => None end) out.

(** The documents handed to [insertOne], in order. *)
Definition inserted (out : list Effect) : list MovementData :=
  omap (λ e, match e with InsertOne doc => Some doc | _ => None end) out.

(** What the logger received at warning level or above. *)
Definition warnings (out : list Effect) : list LogSite :=
  omap (λ e, match e with
             | Log Warn site | Log Err site => Some site
             | _ => None
             end) out.

(** The sockets a [gameOver] summary was handed to, in order. *)
Definition summaries (out : list Effect) : list Conn :=
  omap (λ e, match e with
             | Send ws (GameOver _ _ _ _) => Some ws
             | _ => None
             end) out.

(** ** Vocabulary of the specification *)

(** The distance [endGame] reports for a session. *)
Definition summary_distance (st : ClientState) : Distance :=
  match startPosition st, lastPosition st with
  | Some sp, Some lp => SqrtFixed2 (squared_distance sp lp)
  | _, _ => SqrtFixed2 0
  end.

(** An idle record: every session field cleared, position at the origin. *)
Definition cleared (st : ClientState) : ClientState :=
  mkClientState (clientId st) None None origin None None None None.

(** The four commands and their unit steps, as the specification lists them. *)
Inductive Command := Up | Down | Left | Right.

Definition token (c : Command) : string :=
  match c with
  | Up => "up" | Down => "down" | Left => "left" | Right => "right"
  end%string.

Definition unit_step (c : Command) : Z * Z :=
  match c with
  | Up => (0, 1) | Down => (0, -1) | Left => (-1, 0) | Right => (1, 0)
  end.

Fixpoint vector_sum (cs : list Command) : Z * Z :=
  match cs with
  | [] => (0, 0)
  | c :: cs' => (fst (unit_step c) + fst (vector_sum cs'),
                 snd (unit_step c) + snd (vector_sum cs'))
  end.

Definition translate (p : Position) (v : Z * Z) : Position :=
  mkPosition (x p + fst v) (y p + snd v).

Definition command_of_token (s : string) : option Command :=
  if String.eqb s "up" then Some Up
  else if String.eqb s "down" then Some Down
  else if String.eqb s "left" then Some Left
  else if String.eqb s "right" then Some Right
  else None.

(** The command an event delivers to socket [ws], if it delivers one. *)
Definition accepted_command (ws : Conn) (ev : Event) : option Command :=
  match ev with
  | Message ws' raw _ _ _ _ =>
      if decide (ws' = ws) then
        match parse_command raw with
        | inr s => command_of_token s
        | inl _ => None
        end
      else None
  | _ => None
  end.

Definition accepted_commands (ws : Conn) (evs : list Event) : list Command :=
  omap (accepted_command ws) evs.

(** Events that are neither a timeout nor the end of connection [ws]. *)
Definition keeps_session (ws : Conn) (ev : Event) : bool :=
  match ev with
  | TimerFires _ _ _ => false
  | Close ws' | SocketErrors ws' => bool_decide (ws' ≠ ws)
  | _ => true
  end.

(** A parsed payload with a [command] property of string type. *)
Definition has_string_command (data : json) : Prop :=
  ∃ fields s, data = JObject fields
              ∧ own_property "command" fields = Some (JString s).

(** A payload that does not parse, or parses without such a property. *)
Definition malformed (raw : option json) : Prop :=
  raw = None ∨ ∃ data, raw = Some data ∧ ¬ has_string_command data.

(** The fields a move inside an open session must leave alone. *)
Definition same_session (a b : ClientState) : Prop :=
  clientId a = clientId b ∧ currentGameId a = currentGameId b
  ∧ startPosition a = startPosition b ∧ gameStartTime a = gameStartTime b.

(** Lines 199-214 took effect between [w0] and [w]: the reply for position
    [p] was handed to [ws.send]; the timeout recorded for [ws] in [w0] was
    cleared and a new one, the next one to be created in [w0], was set for
    [ws], so that the pending timeouts of [w] are those of [w0] without
    the recorded one and with the new one; and the new one is what the
    object of [ws] records in [w]. *)
Definition replied_and_rearmed (ws : Conn) (p : Position) (w0 w : World)
    (out : list Effect) : Prop :=
  (ws, PositionUpdate (x p) (y p)) ∈ sent out
  ∧ ∃ st0, objects w0 !! ws = Some st0
      ∧ timers w
        = <[nextTimer w0 := ws]> (timers (clearTimeout (inactivityTimer st0) w0))
      ∧ nextTimer w = S (nextTimer w0)
      ∧ inactivityTimer <$> objects w !! ws = Some (Some (nextTimer w0)).

(** The position recorded in the object of socket [c], if it has one. *)
Definition position_of (w : World) (c : Conn) : option Position :=
  currentPosition <$> objects w !! c.

(** What a run from [w] leaves behind; [(w, [])] if [evs] cannot occur. *)
Definition run_from (w : World) (evs : list Event) : World * list Effect :=
  default (w, []) (run w evs).

(** ** Sample inputs *)

Definition never_throws : OutMsg → bool := λ _, false.

(** The payload [{"command": c}]. *)
Definition say (c : string) : option json :=
  Some (JObject [("command"%string, JString c)]).

(** One registered, idle client; the collection is connected. *)
Definition idle_world : World :=
  mkWorld {[ 0%nat := new_client "c0ffee" ]} {[ 0%nat ]} ∅ 0%nat [] true.

(** The same client in a session that started at the origin and has moved
    right; timeout [0] is pending. *)
Definition playing : ClientState :=
  mkClientState "c0ffee" (Some (mkGameId 100 "c0ff")) (Some origin)
                (mkPosition 1 0) (Some (mkPosition 1 0)) (Some 100)
                (Some 0%nat) (Some 100).

Definition active_world : World :=
  mkWorld {[ 0%nat := playing ]} {[ 0%nat ]} {[ 0%nat := 0%nat ]} 1%nat [] true.

(** How the server gets there. *)
Definition first_move : list Event :=
  [ Connection 0%nat "c0ffee" never_throws;
    DbConnected;
    Message 0%nat (say "right") 100 100 false never_throws;
    InsertSettled 0%nat false never_throws ].

(** The example of the specification: right, right, up, with the first
    write settling before the second command arrives. *)
Definition right_right_up : list Event :=
  [ Message 0%nat (say "right") 100 100 false never_throws;
    InsertSettled 0%nat false never_throws;
    Message 0%nat (say "right") 200 200 false never_throws;
    Message 0%nat (say "up") 300 300 true never_throws ].

(** One registered, idle client while [connectDB] has not finished yet. *)
Definition booting_world : World :=
  mkWorld {[ 0%nat := new_client "c0ffee" ]} {[ 0%nat ]} ∅ 0%nat [] false.

(** A second move arrives before the deadline of the first, the deadline
    passes while its write is in flight, then the write settles. *)
Definition late_rearm : list Event :=
  [ Connection 0%nat "c0ffee" never_throws;
    DbConnected;
    Message 0%nat (say "up") 100 100 false never_throws;
    InsertSettled 0%nat false never_throws;
    Message 0%nat (say "up") 9000 9000 false never_throws;
    TimerFires 0%nat 10100 never_throws;
    InsertSettled 0%nat false never_throws ].

(** ** What one turn of the loop can do to a record

    The assignments the handlers make to a client-state object: the
    session opening and the move of the message handler, the rearm at its
    end, and the clearing done by [endGame]. *)
Inductive record_step : ClientState → ClientState → Prop :=
| rs_same st : record_step st st
| rs_rearm st t : record_step st (set_inactivityTimer t st)
| rs_open st now currentTime t :
    record_step st (set_inactivityTimer t (fst (open_session now currentTime st)))
| rs_move st now currentTime t command p :
    move command (currentPosition st) = Some p →
    record_step st
      (set_inactivityTimer t
         (record_move now p (fst (open_session now currentTime st))))
| rs_clear st : is_Some (currentGameId st) → record_step st (cleared st).

(** The shape every record has: without a game all session fields are
    null and the position is the origin; with a game the start position
    is the origin and the start time is set, and either a move was
    recorded (then [lastPosition] is the current position) or none was
    and the position is still the origin. *)
Definition session_ok (st : ClientState) : Prop :=
  match currentGameId st with
  | None =>
      startPosition st = None ∧ lastPosition st = None
      ∧ lastMoveTime st = None ∧ gameStartTime st = None
      ∧ currentPosition st = origin
  | Some _ =>
      startPosition st = Some origin ∧ is_Some (gameStartTime st)
      ∧ (lastPosition st = Some (currentPosition st) ∧ is_Some (lastMoveTime st)
         ∨ lastPosition st = None ∧ lastMoveTime st = None
           ∧ currentPosition st = origin)
  end.

Definition sessions_ok (w : World) : Prop :=
  ∀ (ws : Conn) st, objects w !! ws = Some st → session_ok st.

(** Is [e] the warning of line 92, "game ended without a start position"? *)
Definition is_no_start_warning (e : Effect) : bool :=
  match e with
  | Log Warn GameFinishedNoStart => true
  | _ => false
  end.

(** The number of timeouts that fire in a list of events. *)
Fixpoint timeouts_in (evs : list Event) : nat :=
  match evs with
  | [] => 0%nat
  | TimerFires _ _ _ :: evs' => S (timeouts_in evs')
  | _ :: evs' => timeouts_in evs'
  end.

(** The same event with another outcome for every [ws.send]. *)
Definition with_sendThrows (f : OutMsg → bool) (ev : Event) : Event :=
  match ev with
  | Connection ws uuid _ => Connection ws uuid f
  | Message ws raw now currentTime insertOneThrows _ =>
      Message ws raw now currentTime insertOneThrows f
  | InsertSettled i rejected _ => InsertSettled i rejected f
  | TimerFires t endTime _ => TimerFires t endTime f
  | Close ws => Close ws
  | SocketErrors ws => SocketErrors ws
  | DbConnected => DbConnected
  end.

(** The socket whose handler an event runs, if any. *)
Definition event_socket (w : World) (ev : Event) : option Conn :=
  match ev with
  | Connection ws _ _ | Message ws _ _ _ _ _ | Close ws | SocketErrors ws => Some ws
  | InsertSettled i _ _ => k_ws <$> suspended w !! i
  | TimerFires t _ _ => timers w !! t
  | DbConnected => None
  end.

(** A recorded timeout that is pending belongs to the socket of the record. *)
Definition timers_own (w : World) : Prop :=
  ∀ (ws c : Conn) st (t : TimerId),
    objects w !! ws = Some st → inactivityTimer st = Some t →
    timers w !! t = Some c → c = ws.

(** ** The client of [websocket_client.js] *)

(** What the [keypress] handler does with a key. *)
Inductive KeyAction :=
| Quit                          (* [ws.close()] *)
| SendPayload (payload : json)  (* [ws.send(JSON.stringify({ command }))] *)
| Redisplay.                    (* [displayPosition()] *)

(** The [switch (key.name)] of lines 31-36; [None] is [command = null]. *)
Definition key_command (name : option string) : option string :=
  match name with
  | None => None
  | Some n =>
      if String.eqb n "up" then Some "up"
      else if String.eqb n "down" then Some "down"
      else if String.eqb n "left" then Some "left"
      else if String.eqb n "right" then Some "right"
      else None
  end%string.

(** Lines 23-48; [name] is [key.name], [None] when it is undefined. *)
Definition onKeypress (name : option string) : KeyAction :=
  if (match name with Some n => String.eqb n "q" | None => false end) then Quit
  else
    match key_command name with
    | Some command => SendPayload (JObject [("command"%string, JString command)])
    | None => Redisplay
    end.

(** Lines 56-77 on a message of the server: [initialState] and
    [positionUpdate] overwrite the client's [currentPosition], the others
    leave it. *)
Definition client_onMessage (p : Position) (m : OutMsg) : Position :=
  match m with
  | InitialState mx my | PositionUpdate mx my => mkPosition mx my
  | GameOver _ _ _ _ | ErrorMsg _ => p
  end.

(** The log sites of the [catch] blocks around [ws.send]. *)
Definition send_failure (site : LogSite) : bool :=
  match site with
  | InitialStateSendFailed | GameOverSendFailed | ResetSendFailed
  | UnknownCommandSendFailed | PositionSendFailed | ProcessingErrorSendFailed => true
  | _ => false
  end.

(** The messages that left the server, in order: the calls to [ws.send]
    that did not throw.  A call that threw is the one directly followed by
    the error log of its [catch] block. *)
Fixpoint delivered (out : list Effect) : list (Conn * OutMsg) :=
  match out with
  | [] => []
  | Send ws m :: rest =>
      match rest with
      | Log Err site :: _ =>
          if send_failure site then delivered rest else (ws, m) :: delivered rest
      | _ => (ws, m) :: delivered rest
      end
  | _ :: rest => delivered rest
  end.

(** The outcome an event fixes for the calls to [ws.send] of its handler. *)
Definition event_sendThrows (ev : Event) : OutMsg → bool :=
  match ev with
  | Connection _ _ f | Message _ _ _ _ _ f | InsertSettled _ _ f
  | TimerFires _ _ f => f
  | Close _ | SocketErrors _ | DbConnected => λ _, false
  end.

(** The client's position after it has handled, in order, the messages of
    [out] that left the server for socket [ws]. *)
Definition client_replay (ws : Conn) (out : list Effect) (p : Position) : Position :=
  fold_left client_onMessage
            (omap (λ cm, if decide (fst cm = ws) then Some (snd cm) else None)
                  (delivered out))
            p.

(** After [first_move], a second move whose write has not settled yet. *)
Definition second_move_pending : list Event :=
  first_move ++ [ Message 0%nat (say "up") 200 200 false never_throws ].

(** Does [e] serve a move: a [positionUpdate], a [gameOver], or a call to
    [insertOne]? *)
Definition serves (e : Effect) : bool :=
  match e with
  | Send _ (PositionUpdate _ _) | Send _ (GameOver _ _ _ _) | InsertOne _ => true
  | _ => false
  end.

(** A client connects and plays before [connectDB] has finished. *)
Definition before_db : list Event :=
  [ Connection 0%nat "c0ffee" never_throws;
    Message 0%nat (say "up") 100 100 false never_throws;
    Message 0%nat (say "jump") 200 200 false never_throws;
    Close 0%nat ].

(** Every [ws.send] throws. *)
Definition always_throws : OutMsg → bool := λ _, true.

(** Socket [c] has in [w'] the record, the registration and the pending
    timeouts it has in [w]. *)
Definition untouched (c : Conn) (w w' : World) : Prop :=
  objects w' !! c = objects w !! c
  ∧ (c ∈ clients w' ↔ c ∈ clients w)
  ∧ ∀ t : TimerId, timers w' !! t = Some c ↔ timers w !! t = Some c.

(** Two clients, the first one playing with timeout [0] pending. *)
Definition two_clients : list Event :=
  first_move ++ [ Connection 1%nat "decade" never_throws ].

(** * Properties *)

Lemma wf_initial : wf initial_world.
Proof.
  split; simpl.
  - intros ws H. set_solver.
  - intros t ws H. by rewrite lookup_empty in H.
  - intros ws st t H. by rewrite lookup_empty in H.
  - intros k H. by apply elem_of_nil in H.
Qed.

Lemma clients_get_Some w (ws : Conn) st :
  clients_get w ws = Some st ↔ ws ∈ clients w ∧ objects w !! ws = Some st.
Proof.
  unfold clients_get. destruct (decide (ws ∈ clients w)); naive_solver.
Qed.

Lemma clients_get_None w (ws : Conn) :
  wf w → clients_get w ws = None → ws ∉ clients w.
Proof.
  intros Hwf. unfold clients_get.
  destruct (decide (ws ∈ clients w)) as [Hin|]; [|done].
  intros Hn. destruct (wf_clients w Hwf ws Hin) as [st Hst]. congruence.
Qed.

Lemma wf_set_object w (ws : Conn) st st' :
  wf w → objects w !! ws = Some st →
  inactivityTimer st' = inactivityTimer st →
  wf (set_object ws st' w).
Proof.
  intros [Hc Ho Hf Hs] Hst Ht. split; simpl.
  - intros c Hin. destruct (decide (ws = c)) as [->|Hne].
    + rewrite lookup_insert_eq. eauto.
    + rewrite lookup_insert_ne by done. auto.
  - intros t c Hp. destruct (Ho t c Hp) as (s & Hs1 & Hs2).
    destruct (decide (ws = c)) as [->|Hne].
    + rewrite lookup_insert_eq. exists st'. split; [done|]. congruence.
    + rewrite lookup_insert_ne by done. eauto.
  - intros c s t. destruct (decide (ws = c)) as [->|Hne].
    + rewrite lookup_insert_eq. intros [= <-] Hs2. rewrite Ht in Hs2. eauto.
    + rewrite lookup_insert_ne by done. eauto.
  - intros k Hk. destruct (decide (ws = k_ws k)) as [->|Hne].
    + rewrite lookup_insert_eq. eauto.
    + rewrite lookup_insert_ne by done. auto.
Qed.

(** [clearTimeout] touches the pending timeouts only. *)
Lemma clearTimeout_objects t w : objects (clearTimeout t w) = objects w.
Proof. by destruct t. Qed.

Lemma clearTimeout_clients t w : clients (clearTimeout t w) = clients w.
Proof. by destruct t. Qed.

Lemma clearTimeout_nextTimer t w : nextTimer (clearTimeout t w) = nextTimer w.
Proof. by destruct t. Qed.

Lemma clearTimeout_suspended t w : suspended (clearTimeout t w) = suspended w.
Proof. by destruct t. Qed.

Lemma clearTimeout_collection t w :
  movementsCollection (clearTimeout t w) = movementsCollection w.
Proof. by destruct t. Qed.

Lemma clearTimeout_timers o w (t : TimerId) (ws : Conn) :
  timers (clearTimeout o w) !! t = Some ws ↔ timers w !! t = Some ws ∧ o ≠ Some t.
Proof.
  destruct o as [t0|]; simpl.
  - rewrite lookup_delete_Some. naive_solver.
  - naive_solver.
Qed.

Lemma wf_clearTimeout w t : wf w → wf (clearTimeout t w).
Proof.
  intros [Hc Ho Hf Hs]. destruct t as [t|]; [|by split].
  split; simpl; auto.
  intros t' c Hp. apply lookup_delete_Some in Hp as [_ Hp]. eauto.
Qed.

Lemma wf_clients_delete w (ws : Conn) : wf w → wf (clients_delete ws w).
Proof.
  intros [Hc Ho Hf Hs]. split; simpl; auto.
  intros c Hin. apply Hc. by apply elem_of_difference in Hin as [? _].
Qed.

Lemma wf_set_suspended w l :
  wf w → (∀ k, k ∈ l → is_Some (objects w !! k_ws k)) →
  wf (set_suspended l w).
Proof. intros [Hc Ho Hf Hs] Hl. by split. Qed.

(** Clearing the recorded timeout and forgetting it, as [endGame] does. *)
Lemma wf_forget_timer w (ws : Conn) st st' :
  wf w → objects w !! ws = Some st → inactivityTimer st' = None →
  wf (set_object ws st' (clearTimeout (inactivityTimer st) w)).
Proof.
  intros [Hc Ho Hf Hs] Hst Ht. split; simpl;
    rewrite ?clearTimeout_objects, ?clearTimeout_clients,
            ?clearTimeout_nextTimer, ?clearTimeout_suspended.
  - intros c Hin. destruct (decide (ws = c)) as [->|Hne].
    + rewrite lookup_insert_eq. eauto.
    + rewrite lookup_insert_ne by done. auto.
  - intros t c Hp. apply clearTimeout_timers in Hp as [Hp Hne'].
    destruct (Ho t c Hp) as (s & Hs1 & Hs2).
    destruct (decide (ws = c)) as [->|Hne].
    + congruence.
    + rewrite lookup_insert_ne by done. eauto.
  - intros c s t. destruct (decide (ws = c)) as [->|Hne].
    + rewrite lookup_insert_eq. intros [= <-]. congruence.
    + rewrite lookup_insert_ne by done. eauto.
  - intros k Hk. destruct (decide (ws = k_ws k)) as [->|Hne].
    + rewrite lookup_insert_eq. eauto.
    + rewrite lookup_insert_ne by done. auto.
Qed.

(** Cancel-and-rearm, as the end of the message handler does. *)
Lemma wf_rearm w (ws : Conn) st :
  wf w → objects w !! ws = Some st →
  wf (set_object ws
        (set_inactivityTimer
           (Some (snd (setTimeout ws (clearTimeout (inactivityTimer st) w)))) st)
        (fst (setTimeout ws (clearTimeout (inactivityTimer st) w)))).
Proof.
  intros [Hc Ho Hf Hs] Hst. split; simpl;
    rewrite ?clearTimeout_objects, ?clearTimeout_clients,
            ?clearTimeout_nextTimer, ?clearTimeout_suspended.
  - intros c Hin. destruct (decide (ws = c)) as [->|Hne].
    + rewrite lookup_insert_eq. eauto.
    + rewrite lookup_insert_ne by done. auto.
  - intros t c Hp. apply lookup_insert_Some in Hp as [[<- <-]|[Hne Hp]].
    + rewrite lookup_insert_eq. eauto.
    + apply clearTimeout_timers in Hp as [Hp Hne'].
      destruct (Ho t c Hp) as (s & Hs1 & Hs2).
      destruct (decide (ws = c)) as [->|Hne2].
      * congruence.
      * rewrite lookup_insert_ne by done. eauto.
  - intros c s t. destruct (decide (ws = c)) as [->|Hne].
    + rewrite lookup_insert_eq. intros [= <-]. simpl. intros [= <-]. lia.
    + rewrite lookup_insert_ne by done. intros H1 H2.
      specialize (Hf c s t H1 H2). lia.
  - intros k Hk. destruct (decide (ws = k_ws k)) as [->|Hne].
    + rewrite lookup_insert_eq. eauto.
    + rewrite lookup_insert_ne by done. auto.
Qed.

Lemma wf_endGame sendThrows endTime (ws : Conn) w :
  wf w → wf (fst (endGame sendThrows endTime ws w)).
Proof.
  intros Hwf. unfold endGame.
  destruct (clients_get w ws) as [st|] eqn:Hget; [|done].
  apply clients_get_Some in Hget as [_ Hst].
  destruct (currentGameId st); [|done].
  destruct (startPosition st), (lastPosition st); simpl;
    by apply (wf_forget_timer w ws st).
Qed.

Lemma wf_finishMove sendThrows k w :
  wf w → wf (fst (finishMove sendThrows k w)).
Proof.
  intros Hwf. unfold finishMove.
  destruct (objects w !! k_ws k) as [st|] eqn:Hst; [|done].
  exact (wf_rearm w (k_ws k) st Hwf Hst).
Qed.

Lemma open_session_timer now currentTime st :
  inactivityTimer (fst (open_session now currentTime st)) = inactivityTimer st.
Proof. unfold open_session. by destruct (currentGameId st). Qed.

Lemma wf_onMessage sendThrows now currentTime insertOneThrows (ws : Conn) raw w :
  wf w → wf (fst (onMessage sendThrows now currentTime insertOneThrows ws raw w)).
Proof.
  intros Hwf. unfold onMessage.
  destruct (clients_get w ws) as [st|] eqn:Hget; [|done].
  apply clients_get_Some in Hget as [_ Hst].
  destruct (parse_command raw) as [e|command]; [done|].
  pose proof (open_session_timer now currentTime st) as Hopen.
  destruct (open_session now currentTime st) as [opened logOpen]. simpl in Hopen.
  destruct (move command (currentPosition opened)) as [newPosition|]; simpl.
  2: { by apply (wf_set_object w ws st). }
  assert (wf (set_object ws (record_move now newPosition opened) w)) as Hwf1
    by by apply (wf_set_object w ws st).
  destruct (movementsCollection w); simpl; [|done].
  destruct insertOneThrows.
  - pose proof (wf_finishMove sendThrows (mkContinuation ws newPosition) _ Hwf1) as H.
    by destruct (finishMove _ _ _).
  - simpl. apply wf_set_suspended; [done|].
    intros k [Hk|Hk]%elem_of_app.
    + simpl. destruct (decide (ws = k_ws k)) as [->|Hne].
      * rewrite lookup_insert_eq. eauto.
      * rewrite lookup_insert_ne by done. by apply (wf_suspended w).
    + apply list_elem_of_singleton in Hk as ->. simpl.
      rewrite lookup_insert_eq. eauto.
Qed.

Lemma wf_onInsertSettled sendThrows rejected i w w' out :
  wf w → onInsertSettled sendThrows rejected i w = Some (w', out) → wf w'.
Proof.
  intros Hwf. unfold onInsertSettled.
  destruct (suspended w !! i) as [k|] eqn:Hk; [|done].
  assert (wf (set_suspended (delete i (suspended w)) w)) as Hwf1.
  { apply wf_set_suspended; [done|]. intros k' Hk'.
    apply (wf_suspended w Hwf). by apply list_elem_of_delete_inv in Hk'. }
  pose proof (wf_finishMove sendThrows k _ Hwf1) as H.
  destruct (finishMove _ _ _). intros [= <- <-]. done.
Qed.

Lemma wf_onTimer sendThrows endTime (t : TimerId) w w' out :
  wf w → onTimer sendThrows endTime t w = Some (w', out) → wf w'.
Proof.
  intros Hwf. unfold onTimer.
  destruct (timers w !! t) as [ws|]; [|done].
  pose proof (wf_endGame sendThrows endTime ws _
                (wf_clearTimeout w (Some t) Hwf)) as H.
  destruct (endGame _ _ _ _). intros [= <- <-]. done.
Qed.

Lemma wf_onClose (ws : Conn) w : wf w → wf (fst (onClose ws w)).
Proof.
  intros Hwf. unfold onClose. destruct (clients_get w ws); [|done].
  simpl. by apply wf_clients_delete, wf_clearTimeout.
Qed.

Lemma wf_onError (ws : Conn) w : wf w → wf (fst (onError ws w)).
Proof.
  intros Hwf. unfold onError. destruct (clients_get w ws); [|done].
  simpl. by apply wf_clients_delete, wf_clearTimeout.
Qed.

Lemma wf_onConnection sendThrows (ws : Conn) uuid w :
  wf w → objects w !! ws = None →
  wf (fst (onConnection sendThrows ws uuid w)).
Proof.
  intros [Hc Ho Hf Hs] Hnew. split; simpl.
  - intros c Hin. destruct (decide (ws = c)) as [->|Hne].
    + rewrite lookup_insert_eq. eauto.
    + rewrite lookup_insert_ne by done. apply Hc.
      apply elem_of_union in Hin as [Hin|Hin]; [|done].
      by apply elem_of_singleton in Hin.
  - intros t c Hp. destruct (Ho t c Hp) as (s & Hs1 & Hs2).
    rewrite lookup_insert_ne by congruence. eauto.
  - intros c s t. destruct (decide (ws = c)) as [->|Hne].
    + rewrite lookup_insert_eq. by intros [= <-].
    + rewrite lookup_insert_ne by done. eauto.
  - intros k Hk. destruct (decide (ws = k_ws k)) as [->|Hne].
    + rewrite lookup_insert_eq. eauto.
    + rewrite lookup_insert_ne by done. auto.
Qed.

Lemma wf_step w ev w' out : wf w → step w ev = Some (w', out) → wf w'.
Proof.
  intros Hwf. destruct ev as [ws uuid sT|ws raw now ct iT sT|i r sT|t e sT|ws|ws|];
    simpl.
  - destruct (objects w !! ws) eqn:Hnew; [done|].
    intros [= <- <-]. exact (wf_onConnection sT ws uuid w Hwf Hnew).
  - pose proof (wf_onMessage sT now ct iT ws raw w Hwf) as H.
    destruct (onMessage _ _ _ _ _ _ _). intros [= <- <-]. done.
  - by apply wf_onInsertSettled.
  - by apply wf_onTimer.
  - pose proof (wf_onClose ws w Hwf) as H.
    destruct (onClose _ _). intros [= <- <-]. done.
  - pose proof (wf_onError ws w Hwf) as H.
    destruct (onError _ _). intros [= <- <-]. done.
  - intros [= <- <-]. destruct Hwf. by split.
Qed.

Lemma wf_run evs : ∀ w w' out, wf w → run w evs = Some (w', out) → wf w'.
Proof.
  induction evs as [|ev evs IH]; intros w w' out Hwf; simpl.
  - by intros [= <- <-].
  - destruct (step w ev) as [[w1 out1]|] eqn:Hstep; [|done].
    destruct (run w1 evs) as [[w2 out2]|] eqn:Hrun; [|done].
    intros [= <- <-]. eapply IH; [|done]. by eapply wf_step.
Qed.

Lemma reachable_wf w : reachable w → wf w.
Proof. intros (evs & out & Hrun). eapply wf_run; [apply wf_initial|done]. Qed.

(** ** The inactivity timeout *)

Lemma clients_get_clearTimeout o w (ws : Conn) :
  clients_get (clearTimeout o w) ws = clients_get w ws.
Proof.
  unfold clients_get. by rewrite clearTimeout_clients, clearTimeout_objects.
Qed.

Lemma clients_get_set_object w (ws : Conn) st :
  ws ∈ clients w → clients_get (set_object ws st w) ws = Some st.
Proof.
  intros Hin. unfold clients_get. simpl.
  destruct (decide (ws ∈ clients w)); [|done]. apply lookup_insert_eq.
Qed.

(** [endGame] returns at its guard when the record is gone or no game is
    open: nothing is sent, logged or changed. *)
Lemma endGame_guard sendThrows endTime (ws : Conn) w :
  (clients_get w ws = None
   ∨ ∃ st, clients_get w ws = Some st ∧ currentGameId st = None) →
  endGame sendThrows endTime ws w = (w, []).
Proof.
  unfold endGame. intros [->|(st & -> & ->)]; done.
Qed.

(** [endGame] past its guard: the summary, then the reset. *)
Lemma endGame_active sendThrows endTime (ws : Conn) w st gid :
  clients_get w ws = Some st → currentGameId st = Some gid →
  ∃ logs,
    sent logs = []
    ∧ endGame sendThrows endTime ws w
      = (set_object ws (cleared st) (clearTimeout (inactivityTimer st) w),
         logs
         ++ trySend sendThrows ws
              (GameOver gid (summary_distance st) (gameStartTime st) endTime)
              GameOverSendFailed
         ++ trySend sendThrows ws (PositionUpdate 0 0) ResetSendFailed).
Proof.
  intros Hget Hgid. unfold endGame, summary_distance. rewrite Hget, Hgid.
  destruct (startPosition st) as [sp|], (lastPosition st) as [lp|];
    eexists; (split; [|reflexivity]); done.
Qed.

Lemma sent_trySend sendThrows (ws : Conn) m site :
  sent (trySend sendThrows ws m site) = [(ws, m)].
Proof. unfold trySend. by destruct (sendThrows m). Qed.

(** C1: when the inactivity timeout of a connection with an open session
    fires, exactly one [gameOver] is handed to [ws.send]; it carries the
    game id, the start time and the distance of the session as they were
    before the fields are cleared; the very next message sent is one
    [positionUpdate] with x=0, y=0; the record is left cleared, so that a
    further [endGame] for it emits nothing. *)
Theorem C1_timeout_emits_one_summary
    w (t : TimerId) (ws : Conn) st gid endTime sendThrows :
  timers w !! t = Some ws →
  clients_get w ws = Some st →
  currentGameId st = Some gid →
  ∃ w' out,
    step w (TimerFires t endTime sendThrows) = Some (w', out)
    ∧ sent out = [ (ws, GameOver gid (summary_distance st) (gameStartTime st) endTime);
                   (ws, PositionUpdate 0 0) ]
    ∧ clients_get w' ws = Some (cleared st)
    ∧ ∀ endTime' sendThrows', endGame sendThrows' endTime' ws w' = (w', []).
Proof.
  intros Ht Hget Hgid. simpl. unfold onTimer. rewrite Ht.
  destruct (endGame_active sendThrows endTime ws (clearTimeout (Some t) w) st gid)
    as (logs & Hlogs & ->); [by rewrite clients_get_clearTimeout|done|].
  apply clients_get_Some in Hget as [Hin Hst].
  assert (ws ∈ clients (clearTimeout (inactivityTimer st) (clearTimeout (Some t) w)))
    as Hin' by by rewrite !clearTimeout_clients.
  eexists _, _. split; [reflexivity|]. split; [|split].
  - unfold sent in *. cbn [omap list_omap]. rewrite !omap_app, Hlogs.
    fold (sent (trySend sendThrows ws
                  (GameOver gid (summary_distance st) (gameStartTime st) endTime)
                  GameOverSendFailed)).
    fold (sent (trySend sendThrows ws (PositionUpdate 0 0) ResetSendFailed)).
    by rewrite !sent_trySend.
  - by apply clients_get_set_object.
  - intros e' s'. apply endGame_guard. right. exists (cleared st).
    split; [by apply clients_get_set_object|done].
Qed.

Lemma C1_timeout_emits_one_summary_witness :
  ∃ w' out,
    step active_world (TimerFires 0%nat 10300 never_throws) = Some (w', out)
    ∧ sent out = [ (0%nat, GameOver (mkGameId 100 "c0ff") (summary_distance playing)
                              (gameStartTime playing) 10300);
                   (0%nat, PositionUpdate 0 0) ]
    ∧ clients_get w' 0%nat = Some (cleared playing)
    ∧ ∀ endTime' sendThrows', endGame sendThrows' endTime' 0%nat w' = (w', []).
Proof.
  apply (C1_timeout_emits_one_summary active_world 0%nat 0%nat playing
           (mkGameId 100 "c0ff") 10300 never_throws); reflexivity.
Defined.

(** ** Rejected messages *)

Lemma malformed_throws raw : malformed raw → ∃ e, parse_command raw = inl e.
Proof.
  intros [->|(data & -> & Hno)]; [by eexists|].
  unfold parse_command.
  destruct data as [|b|n|s|items|fields]; simpl; try by eexists.
  destruct (own_property "command" fields) as [[|b|n|s|items|fields']|] eqn:Hp;
    try by eexists.
  destruct Hno. by exists fields, s.
Qed.

Lemma parse_command_malformed raw e : parse_command raw = inl e → malformed raw.
Proof.
  destruct raw as [data|]; [|by left]. intros Hp. right.
  exists data. split; [done|]. intros (fields & s & -> & Hown).
  simpl in Hp. by rewrite Hown in Hp.
Qed.

(** C9: on a registered connection, a payload that does not parse, or that
    parses without a [command] property of string type, makes the handler
    hand exactly one error reply to [ws.send] and leaves the whole world as
    it was: no field of any record, no timeout, no suspended handler
    changes, and nothing is handed to [insertOne]. *)
Theorem C9_malformed_message_only_replies
    w (ws : Conn) st raw now currentTime insertOneThrows sendThrows :
  clients_get w ws = Some st →
  malformed raw →
  ∃ out,
    step w (Message ws raw now currentTime insertOneThrows sendThrows) = Some (w, out)
    ∧ sent out = [ (ws, ErrorMsg ProcessingErrorText) ]
    ∧ inserted out = [].
Proof.
  intros Hget [e He]%malformed_throws. simpl. unfold onMessage.
  rewrite Hget, He. eexists. split; [reflexivity|].
  unfold trySend. by destruct (sendThrows _).
Qed.

Lemma C9_malformed_message_only_replies_witness :
  ∃ out,
    step active_world
         (Message 0%nat (Some (JObject [("command"%string, JNumber "7")]))
                  300 300 false never_throws)
    = Some (active_world, out)
    ∧ sent out = [ (0%nat, ErrorMsg ProcessingErrorText) ]
    ∧ inserted out = [].
Proof.
  apply (C9_malformed_message_only_replies active_world 0%nat playing); [reflexivity|].
  right. eexists. split; [reflexivity|].
  intros (fields & s & Heq & Hown). injection Heq as <-. discriminate Hown.
Defined.

(** ** Unknown commands *)

(** Inside an open session an unknown command is answered with one error
    reply and changes nothing. *)
Lemma unknown_command_active
    w (ws : Conn) st command raw now currentTime insertOneThrows sendThrows :
  clients_get w ws = Some st →
  is_Some (currentGameId st) →
  parse_command raw = inr command →
  move command (currentPosition st) = None →
  ∃ out,
    step w (Message ws raw now currentTime insertOneThrows sendThrows) = Some (w, out)
    ∧ sent out = [ (ws, ErrorMsg (UnknownCommandText command)) ]
    ∧ inserted out = [].
Proof.
  intros Hget [gid Hgid] Hparse Hmove. simpl. unfold onMessage, open_session.
  rewrite Hget, Hparse, Hgid, Hmove.
  apply clients_get_Some in Hget as [Hin Hst].
  assert (set_object ws st w = w) as ->.
  { destruct w. unfold set_object. simpl in *. f_equal. by apply insert_id. }
  eexists. split; [reflexivity|].
  unfold trySend. by destruct (sendThrows _).
Qed.

(** C5, at the input where the code departs from it: the message
    [{"command": "jump"}] reaches an idle client.  One error reply is sent
    and the position stays, but the handler has already opened a session:
    [currentGameId], [startPosition] and [gameStartTime] are set, and no
    deadline is armed for it. *)
Theorem C5_unknown_command_opens_session :
  ∃ w' out,
    step idle_world (Message 0%nat (say "jump") 100 101 false never_throws)
    = Some (w', out)
    ∧ clients_get idle_world 0%nat = Some (new_client "c0ffee")
    ∧ clients_get w' 0%nat
      = Some (mkClientState "c0ffee" (Some (mkGameId 100 "c0ff")) (Some origin)
                            origin None None None (Some 101))
    ∧ timers w' = ∅
    ∧ sent out = [ (0%nat, ErrorMsg (UnknownCommandText "jump")) ]
    ∧ inserted out = [].
Proof. eexists _, _. split; [reflexivity|]. repeat split. Qed.

(** ** Moves inside an open session *)

(** C10: while a session is open, the handler of an accepted move leaves
    [clientId], [currentGameId], [startPosition] and [gameStartTime] of the
    record as they were, and so does its continuation after the [await],
    which changes nothing but the recorded timeout; the records of the
    other sockets are not touched. *)
Theorem C10_move_keeps_session_fields
    w (ws : Conn) st command p raw now currentTime insertOneThrows sendThrows :
  clients_get w ws = Some st →
  is_Some (currentGameId st) →
  parse_command raw = inr command →
  move command (currentPosition st) = Some p →
  (∃ w' out st',
      step w (Message ws raw now currentTime insertOneThrows sendThrows)
      = Some (w', out)
      ∧ objects w' !! ws = Some st'
      ∧ same_session st st'
      ∧ currentPosition st' = p ∧ lastPosition st' = Some p
      ∧ lastMoveTime st' = Some now
      ∧ ∀ c : Conn, c ≠ ws → objects w' !! c = objects w !! c)
  ∧ (∀ w2 st2 i rejected sendThrows2,
      suspended w2 !! i = Some (mkContinuation ws p) →
      objects w2 !! ws = Some st2 →
      ∃ w3 out3 (t : TimerId),
        step w2 (InsertSettled i rejected sendThrows2) = Some (w3, out3)
        ∧ objects w3 !! ws = Some (set_inactivityTimer (Some t) st2)
        ∧ ∀ c : Conn, c ≠ ws → objects w3 !! c = objects w2 !! c).
Proof.
  intros Hget [gid Hgid] Hparse Hmove. split.
  - simpl. unfold onMessage, open_session. rewrite Hget, Hparse, Hgid, Hmove.
    destruct (movementsCollection w); simpl.
    + destruct insertOneThrows.
      * unfold finishMove. simpl. rewrite lookup_insert_eq. simpl.
        eexists _, _, _. split; [reflexivity|]. simpl.
        rewrite lookup_insert_eq. split; [reflexivity|]. repeat split.
        intros c Hc. rewrite clearTimeout_objects. simpl.
        by rewrite !lookup_insert_ne.
      * eexists _, _, _. split; [reflexivity|]. simpl.
        rewrite lookup_insert_eq. split; [reflexivity|]. repeat split.
        intros c Hc. by rewrite lookup_insert_ne.
    + eexists _, _, _. split; [reflexivity|]. simpl.
      rewrite lookup_insert_eq. split; [reflexivity|]. repeat split.
      intros c Hc. by rewrite lookup_insert_ne.
  - intros w2 st2 i rejected sT2 Hk Hst2. simpl.
    unfold onInsertSettled, finishMove. rewrite Hk. simpl. rewrite Hst2. simpl.
    eexists _, _, _. split; [reflexivity|]. simpl.
    rewrite lookup_insert_eq. split; [reflexivity|].
    intros c Hc. rewrite clearTimeout_objects. simpl. by rewrite lookup_insert_ne.
Qed.

Lemma C10_move_keeps_session_fields_witness :
  (∃ w' out st',
      step active_world (Message 0%nat (say "up") 300 301 false never_throws)
      = Some (w', out)
      ∧ objects w' !! 0%nat = Some st'
      ∧ same_session playing st'
      ∧ currentPosition st' = mkPosition 1 1 ∧ lastPosition st' = Some (mkPosition 1 1)
      ∧ lastMoveTime st' = Some 300
      ∧ ∀ c : Conn, c ≠ 0%nat → objects w' !! c = objects active_world !! c)
  ∧ (∀ w2 st2 i rejected sendThrows2,
      suspended w2 !! i = Some (mkContinuation 0%nat (mkPosition 1 1)) →
      objects w2 !! 0%nat = Some st2 →
      ∃ w3 out3 (t : TimerId),
        step w2 (InsertSettled i rejected sendThrows2) = Some (w3, out3)
        ∧ objects w3 !! 0%nat = Some (set_inactivityTimer (Some t) st2)
        ∧ ∀ c : Conn, c ≠ 0%nat → objects w3 !! c = objects w2 !! c).
Proof.
  apply (C10_move_keeps_session_fields active_world 0%nat playing "up"
           (mkPosition 1 1) (say "up") 300 301 false never_throws).
  - reflexivity.
  - simpl. eexists. reflexivity.
  - reflexivity.
  - reflexivity.
Defined.

(** ** How handlers move positions *)

Lemma finishMove_position sendThrows k w (c : Conn) :
  position_of (fst (finishMove sendThrows k w)) c = position_of w c.
Proof.
  unfold finishMove, position_of.
  destruct (objects w !! k_ws k) as [st|] eqn:Hst; [|done]. simpl.
  rewrite clearTimeout_objects.
  destruct (decide (k_ws k = c)) as [<-|Hne].
  - by rewrite lookup_insert_eq, Hst.
  - by rewrite lookup_insert_ne.
Qed.

Lemma finishMove_clients sendThrows k w :
  clients (fst (finishMove sendThrows k w)) = clients w.
Proof.
  unfold finishMove. destruct (objects w !! k_ws k); [|done]. simpl.
  by rewrite clearTimeout_clients.
Qed.

Lemma onMessage_clients sendThrows now currentTime insertOneThrows (ws : Conn) raw w :
  clients (fst (onMessage sendThrows now currentTime insertOneThrows ws raw w))
  = clients w.
Proof.
  unfold onMessage. destruct (clients_get w ws) as [st|]; [|done].
  destruct (parse_command raw) as [e|command]; [done|].
  destruct (open_session now currentTime st) as [opened logOpen].
  destruct (move command (currentPosition opened)) as [newPosition|]; [|done].
  destruct (movementsCollection w); simpl; [|done].
  destruct insertOneThrows; [|done].
  pose proof (finishMove_clients sendThrows (mkContinuation ws newPosition)
    (set_object ws (record_move now newPosition opened) w)) as H.
  by destruct (finishMove _ _ _).
Qed.

Lemma open_session_position now currentTime st :
  currentPosition (fst (open_session now currentTime st)) = currentPosition st.
Proof. unfold open_session. by destruct (currentGameId st). Qed.

(** A message leaves the positions of the other sockets alone. *)
Lemma onMessage_position_other
    sendThrows now currentTime insertOneThrows (ws c : Conn) raw w :
  c ≠ ws →
  position_of (fst (onMessage sendThrows now currentTime insertOneThrows ws raw w)) c
  = position_of w c.
Proof.
  intros Hne. unfold onMessage. destruct (clients_get w ws) as [st|]; [|done].
  destruct (parse_command raw) as [e|command]; [done|].
  destruct (open_session now currentTime st) as [opened logOpen].
  assert (∀ st', position_of (set_object ws st' w) c = position_of w c) as Hset.
  { intros st'. unfold position_of. simpl. by rewrite lookup_insert_ne. }
  destruct (move command (currentPosition opened)) as [newPosition|]; [|apply Hset].
  destruct (movementsCollection w); cbn [negb fst]; [|apply Hset].
  destruct insertOneThrows.
  - pose proof (finishMove_position sendThrows (mkContinuation ws newPosition)
      (set_object ws (record_move now newPosition opened) w) c) as H.
    destruct (finishMove _ _ _). cbn [fst] in *. by rewrite H.
  - unfold position_of. simpl. by rewrite lookup_insert_ne.
Qed.

(** On a registered socket, a message with a string command replaces the
    position by the outcome of the [switch], or keeps it in the [default]
    branch. *)
Lemma onMessage_position
    sendThrows now currentTime insertOneThrows (ws : Conn) raw command w st :
  clients_get w ws = Some st →
  parse_command raw = inr command →
  position_of (fst (onMessage sendThrows now currentTime insertOneThrows ws raw w)) ws
  = Some (default (currentPosition st) (move command (currentPosition st))).
Proof.
  intros Hget Hparse. unfold onMessage. rewrite Hget, Hparse.
  pose proof (open_session_position now currentTime st) as Hopen.
  destruct (open_session now currentTime st) as [opened logOpen]. simpl in Hopen.
  rewrite Hopen.
  assert (∀ st', position_of (set_object ws st' w) ws = Some (currentPosition st'))
    as Hset.
  { intros st'. unfold position_of. simpl. by rewrite lookup_insert_eq. }
  destruct (move command (currentPosition st)) as [newPosition|].
  2: { cbn [fst default]. by rewrite Hset, Hopen. }
  destruct (movementsCollection w); cbn [negb fst default]; [|by rewrite Hset].
  destruct insertOneThrows.
  - pose proof (finishMove_position sendThrows (mkContinuation ws newPosition)
      (set_object ws (record_move now newPosition opened) w) ws) as H.
    destruct (finishMove _ _ _). cbn [fst] in *. by rewrite H, Hset.
  - unfold position_of. simpl. by rewrite lookup_insert_eq.
Qed.

(** A message that is rejected before the [switch], or that comes from a
    socket without a record, changes nothing. *)
Lemma onMessage_dropped
    sendThrows now currentTime insertOneThrows (ws : Conn) raw w :
  (clients_get w ws = None ∨ ∃ e, parse_command raw = inl e) →
  fst (onMessage sendThrows now currentTime insertOneThrows ws raw w) = w.
Proof.
  unfold onMessage. intros [->|[e ->]]; [done|].
  by destruct (clients_get w ws).
Qed.

(** [endGame] either returns at its guard or resets a registered socket
    with an open game to the origin; the other positions stay. *)
Lemma endGame_position sendThrows endTime (ws : Conn) w :
  endGame sendThrows endTime ws w = (w, [])
  ∨ (∃ st, clients_get w ws = Some st ∧ is_Some (currentGameId st))
    ∧ position_of (fst (endGame sendThrows endTime ws w)) ws = Some origin
    ∧ ∀ c : Conn, c ≠ ws →
        position_of (fst (endGame sendThrows endTime ws w)) c = position_of w c.
Proof.
  destruct (clients_get w ws) as [st|] eqn:Hget.
  2: { left. apply endGame_guard. by left. }
  destruct (currentGameId st) as [gid|] eqn:Hgid.
  2: { left. apply endGame_guard. right. by exists st. }
  right. split; [by exists st; eauto|].
  destruct (endGame_active sendThrows endTime ws w st gid Hget Hgid)
    as (logs & _ & ->). unfold position_of. simpl. rewrite clearTimeout_objects.
  split.
  - by rewrite lookup_insert_eq.
  - intros c Hc. by rewrite lookup_insert_ne.
Qed.

Lemma endGame_clients sendThrows endTime (ws : Conn) w :
  clients (fst (endGame sendThrows endTime ws w)) = clients w.
Proof.
  unfold endGame. destruct (clients_get w ws) as [st|]; [|done].
  destruct (currentGameId st); [|done].
  destruct (startPosition st), (lastPosition st); simpl;
    by rewrite clearTimeout_clients.
Qed.

Lemma onInsertSettled_position sendThrows rejected i w w' out (c : Conn) :
  onInsertSettled sendThrows rejected i w = Some (w', out) →
  position_of w' c = position_of w c ∧ clients w' = clients w.
Proof.
  unfold onInsertSettled. destruct (suspended w !! i) as [k|]; [|done].
  pose proof (finishMove_position sendThrows k
                (set_suspended (delete i (suspended w)) w) c) as Hp.
  pose proof (finishMove_clients sendThrows k
                (set_suspended (delete i (suspended w)) w)) as Hc.
  destruct (finishMove _ _ _). intros [= <- <-]. done.
Qed.

Lemma onClose_objects (ws : Conn) w :
  objects (fst (onClose ws w)) = objects w
  ∧ ∀ c : Conn, c ≠ ws → c ∈ clients (fst (onClose ws w)) ↔ c ∈ clients w.
Proof.
  unfold onClose. destruct (clients_get w ws) as [st|]; simpl; [|done].
  rewrite clearTimeout_objects, clearTimeout_clients. split; [done|].
  intros c Hc. rewrite elem_of_difference, elem_of_singleton. tauto.
Qed.

Lemma onError_objects (ws : Conn) w :
  objects (fst (onError ws w)) = objects w
  ∧ ∀ c : Conn, c ≠ ws → c ∈ clients (fst (onError ws w)) ↔ c ∈ clients w.
Proof.
  unfold onError. destruct (clients_get w ws) as [st|]; simpl; [|done].
  rewrite clearTimeout_objects, clearTimeout_clients. split; [done|].
  intros c Hc. rewrite elem_of_difference, elem_of_singleton. tauto.
Qed.

Lemma clients_get_position w (ws : Conn) p :
  ws ∈ clients w → position_of w ws = Some p →
  ∃ st, clients_get w ws = Some st ∧ currentPosition st = p.
Proof.
  unfold position_of, clients_get. intros Hin Hp.
  destruct (decide (ws ∈ clients w)); [|done].
  destruct (objects w !! ws) as [st|]; [|done].
  exists st. split; [done|]. by injection Hp.
Qed.

Lemma position_of_clients_get w (ws : Conn) st :
  clients_get w ws = Some st → position_of w ws = Some (currentPosition st).
Proof.
  intros [_ Hst]%clients_get_Some. unfold position_of. by rewrite Hst.
Qed.

(** The [switch] of the handler and the unit steps of the specification
    agree on every command string. *)
Lemma move_unit_step command p :
  move command p = (λ c, translate p (unit_step c)) <$> command_of_token command.
Proof.
  unfold move, command_of_token, translate.
  destruct (String.eqb command "up"); [simpl; do 2 f_equal; lia|].
  destruct (String.eqb command "down"); [simpl; do 2 f_equal; lia|].
  destruct (String.eqb command "left"); [simpl; do 2 f_equal; lia|].
  destruct (String.eqb command "right"); [simpl; do 2 f_equal; lia|].
  done.
Qed.

(** One turn of the loop that is neither a timeout nor the end of [ws]:
    the socket stays registered and its position moves by the unit step of
    the command the event delivers to it, if any. *)
Lemma step_keeps_session (ws : Conn) w ev w1 out1 st :
  step w ev = Some (w1, out1) →
  clients_get w ws = Some st →
  keeps_session ws ev = true →
  ∃ st1, clients_get w1 ws = Some st1
         ∧ currentPosition st1
           = match accepted_command ws ev with
             | Some c => translate (currentPosition st) (unit_step c)
             | None => currentPosition st
             end.
Proof.
  intros Hstep Hget Hkeep.
  pose proof (position_of_clients_get w ws st Hget) as Hpos.
  pose proof Hget as [Hin Hst]%clients_get_Some.
  destruct ev as [ws' uuid sT|ws' raw now ct iT sT|i r sT|t e sT|ws'|ws'|];
    simpl in Hstep, Hkeep |- *.
  - destruct (objects w !! ws') eqn:Hnew; [done|].
    injection Hstep as <- <-. apply clients_get_position.
    + simpl. set_solver.
    + unfold position_of. simpl. rewrite lookup_insert_ne by congruence.
      exact Hpos.
  - injection Hstep as Hstep.
    assert (clients w1 = clients w) as Hcl
      by (rewrite <- (onMessage_clients sT now ct iT ws' raw w); by rewrite Hstep).
    destruct (decide (ws' = ws)) as [->|Hne].
    + destruct (parse_command raw) as [err|command] eqn:Hparse.
      * pose proof (onMessage_dropped sT now ct iT ws raw w) as Hd.
        rewrite Hstep in Hd. simpl in Hd. rewrite Hd by eauto. eauto.
      * pose proof (onMessage_position sT now ct iT ws raw command w st Hget Hparse)
          as Hp.
        rewrite Hstep in Hp. simpl in Hp.
        apply clients_get_position; [by rewrite Hcl|]. rewrite Hp.
        rewrite move_unit_step. by destruct (command_of_token command).
    + pose proof (onMessage_position_other sT now ct iT ws' ws raw w) as Hp.
      rewrite Hstep in Hp. simpl in Hp.
      apply clients_get_position; [by rewrite Hcl|]. rewrite Hp by done. exact Hpos.
  - destruct (onInsertSettled_position sT r i w w1 out1 ws Hstep) as [Hp Hcl].
    apply clients_get_position; [by rewrite Hcl|]. by rewrite Hp.
  - done.
  - apply bool_decide_eq_true in Hkeep. injection Hstep as Hstep.
    destruct (onClose_objects ws' w) as [Ho Hc]. rewrite Hstep in Ho, Hc.
    simpl in Ho, Hc. apply clients_get_position.
    + apply Hc; [congruence|done].
    + unfold position_of. rewrite Ho. exact Hpos.
  - apply bool_decide_eq_true in Hkeep. injection Hstep as Hstep.
    destruct (onError_objects ws' w) as [Ho Hc]. rewrite Hstep in Ho, Hc.
    simpl in Ho, Hc. apply clients_get_position.
    + apply Hc; [congruence|done].
    + unfold position_of. rewrite Ho. exact Hpos.
  - injection Hstep as <- <-. apply clients_get_position; [done|exact Hpos].
Qed.

Lemma translate_translate p u v :
  translate (translate p u) v
  = translate p (fst u + fst v, snd u + snd v).
Proof. unfold translate. simpl. f_equal; lia. Qed.

Lemma translate_zero p : translate p (0, 0) = p.
Proof. destruct p. unfold translate. simpl. f_equal; lia. Qed.

(** C3: along any run of the event loop that contains no timeout and does
    not end connection [ws], the position recorded for [ws] at the end is
    its position at the start translated by the vector sum of the unit
    steps (up (0,+1), down (0,-1), left (-1,0), right (+1,0)) of the
    accepted commands delivered to [ws], in order. *)
Theorem C3_position_is_vector_sum (ws : Conn) evs :
  ∀ w w' out st,
    clients_get w ws = Some st →
    forallb (keeps_session ws) evs = true →
    run w evs = Some (w', out) →
    ∃ st', clients_get w' ws = Some st'
           ∧ currentPosition st'
             = translate (currentPosition st)
                         (vector_sum (accepted_commands ws evs)).
Proof.
  induction evs as [|ev evs IH]; intros w w' out st Hget Hkeep Hrun.
  - injection Hrun as <- <-. exists st. split; [done|].
    symmetry. apply translate_zero.
  - simpl in Hrun, Hkeep. apply andb_true_iff in Hkeep as [Hk1 Hk2].
    destruct (step w ev) as [[w1 out1]|] eqn:Hstep; [|done].
    destruct (run w1 evs) as [[w2 out2]|] eqn:Hrun'; [|done].
    injection Hrun as <- <-.
    destruct (step_keeps_session ws w ev w1 out1 st Hstep Hget Hk1)
      as (st1 & Hget1 & Hpos1).
    destruct (IH w1 w2 out2 st1 Hget1 Hk2 Hrun') as (st' & Hget' & Hpos').
    exists st'. split; [done|]. rewrite Hpos', Hpos1.
    unfold accepted_commands. simpl.
    destruct (accepted_command ws ev) as [c|]; [|done].
    simpl. by rewrite translate_translate.
Qed.

Lemma C3_position_is_vector_sum_witness :
  ∃ st', clients_get (fst (run_from idle_world right_right_up)) 0%nat = Some st'
         ∧ currentPosition st'
           = translate (currentPosition (new_client "c0ffee"))
                       (vector_sum (accepted_commands 0%nat right_right_up)).
Proof.
  apply (C3_position_is_vector_sum 0%nat right_right_up idle_world
           (fst (run_from idle_world right_right_up))
           (snd (run_from idle_world right_right_up))
           (new_client "c0ffee")).
  - reflexivity.
  - reflexivity.
  - vm_compute. reflexivity.
Defined.

(** ** Session start and position resets *)

Lemma position_of_Some w (c : Conn) p :
  position_of w c = Some p ↔ ∃ st, objects w !! c = Some st ∧ currentPosition st = p.
Proof. unfold position_of. rewrite fmap_Some. naive_solver. Qed.

Lemma finishMove_object sendThrows k w :
  objects (fst (finishMove sendThrows k w)) !! k_ws k
  = set_inactivityTimer (Some (nextTimer w)) <$> objects w !! k_ws k.
Proof.
  unfold finishMove. destruct (objects w !! k_ws k) as [st|] eqn:Hst; simpl.
  - by rewrite lookup_insert_eq, clearTimeout_nextTimer.
  - by rewrite Hst.
Qed.

(** The record of a registered socket after a message with a string
    command: session opened if none was, move recorded if the command is
    one of the four, and some value in the timeout field. *)
Lemma onMessage_object
    sendThrows now currentTime insertOneThrows (ws : Conn) raw command w st :
  clients_get w ws = Some st →
  parse_command raw = inr command →
  ∃ t, objects (fst (onMessage sendThrows now currentTime insertOneThrows ws raw w)) !! ws
       = Some (set_inactivityTimer t
                 match move command (currentPosition st) with
                 | Some p => record_move now p (fst (open_session now currentTime st))
                 | None => fst (open_session now currentTime st)
                 end).
Proof.
  intros Hget Hparse. unfold onMessage. rewrite Hget, Hparse.
  pose proof (open_session_position now currentTime st) as Hopen.
  destruct (open_session now currentTime st) as [opened logOpen]. simpl in Hopen.
  rewrite Hopen. cbn [fst].
  assert (∀ st', set_inactivityTimer (inactivityTimer st') st' = st') as Hid
    by by intros [].
  destruct (move command (currentPosition st)) as [newPosition|]; cbn [fst].
  2: { exists (inactivityTimer opened). simpl. by rewrite lookup_insert_eq, Hid. }
  destruct (movementsCollection w); cbn [negb fst].
  2: { eexists (inactivityTimer (record_move now newPosition opened)).
       simpl objects. by rewrite lookup_insert_eq, Hid. }
  destruct insertOneThrows.
  - pose proof (finishMove_object sendThrows (mkContinuation ws newPosition)
      (set_object ws (record_move now newPosition opened) w)) as H.
    destruct (finishMove _ _ _). cbn [fst k_ws] in *. rewrite H. simpl.
    rewrite lookup_insert_eq. by eexists.
  - eexists (inactivityTimer (record_move now newPosition opened)).
    simpl objects. by rewrite lookup_insert_eq, Hid.
Qed.

(** ** Persistence failures *)

Lemma finishMove_replies sendThrows k w :
  is_Some (objects w !! k_ws k) →
  replied_and_rearmed (k_ws k) (k_newPosition k) w
    (fst (finishMove sendThrows k w)) (snd (finishMove sendThrows k w)).
Proof.
  intros [st Hst]. unfold finishMove. rewrite Hst. simpl. split.
  - destruct (sendThrows _); simpl; apply list_elem_of_here.
  - exists st. rewrite clearTimeout_nextTimer. simpl.
    by rewrite lookup_insert_eq.
Qed.

Lemma replied_and_rearmed_app (ws : Conn) p w0 w pre out :
  replied_and_rearmed ws p w0 w out → replied_and_rearmed ws p w0 w (pre ++ out).
Proof.
  intros [Hs Ht]. split; [|done]. unfold sent. rewrite omap_app.
  apply elem_of_app. by right.
Qed.

(** Recording the move does not touch the timeouts: the rearm that
    follows a synchronous throw of [insertOne] is a rearm of the world the
    message arrived in. *)
Lemma replied_and_rearmed_recorded (ws : Conn) p w st st1 w' out :
  objects w !! ws = Some st →
  inactivityTimer st1 = inactivityTimer st →
  replied_and_rearmed ws p (set_object ws st1 w) w' out →
  replied_and_rearmed ws p w w' out.
Proof.
  intros Hst Htimer (Hsent & st0 & Hst0 & Htm & Hnext & Hrec).
  split; [done|]. exists st. simpl in Hst0. rewrite lookup_insert_eq in Hst0.
  injection Hst0 as <-. rewrite Htimer in Htm. split; [done|]. split; [|done].
  rewrite Htm. by destruct (inactivityTimer st).
Qed.

Lemma replied_and_rearmed_suspended (ws : Conn) p l w w' out :
  replied_and_rearmed ws p (set_suspended l w) w' out →
  replied_and_rearmed ws p w w' out.
Proof.
  intros (Hsent & st0 & Hst0 & Htm & Hnext & Hrec).
  split; [done|]. exists st0. split; [done|]. split; [|done].
  rewrite Htm. by destruct (inactivityTimer st0).
Qed.

(** The guard of lines 190-193: while [movementsCollection] is not set the
    handler records the move, logs an error and returns.  Nothing is sent,
    and the pending timeouts and the recorded timeout stay as they were. *)
Lemma collection_guard_returns
    w (ws : Conn) st raw command p now currentTime insertOneThrows sendThrows :
  clients_get w ws = Some st →
  parse_command raw = inr command →
  move command (currentPosition st) = Some p →
  movementsCollection w = false →
  ∃ w' out,
    step w (Message ws raw now currentTime insertOneThrows sendThrows)
    = Some (w', out)
    ∧ position_of w' ws = Some p
    ∧ sent out = []
    ∧ inserted out = []
    ∧ timers w' = timers w
    ∧ inactivityTimer <$> objects w' !! ws = Some (inactivityTimer st).
Proof.
  intros Hget Hparse Hmove Hcoll.
  pose proof (open_session_position now currentTime st) as Hopen.
  pose proof (open_session_timer now currentTime st) as Htimer.
  assert (sent (snd (open_session now currentTime st)) = []
          ∧ inserted (snd (open_session now currentTime st)) = []) as [Hlog Hins]
    by (unfold open_session; by destruct (currentGameId st)).
  simpl. unfold onMessage. rewrite Hget, Hparse.
  destruct (open_session now currentTime st) as [opened logOpen].
  simpl in Hopen, Htimer, Hlog, Hins.
  rewrite Hopen, Hmove, Hcoll. cbn [negb].
  eexists _, _. split; [reflexivity|]. unfold position_of. simpl.
  rewrite lookup_insert_eq. simpl. repeat split; [| |by rewrite Htimer].
  - unfold sent in *. cbn [omap list_omap]. rewrite omap_app, Hlog. done.
  - unfold inserted in *. cbn [omap list_omap]. rewrite omap_app, Hins. done.
Qed.

(** While its write is in flight, an accepted move leaves the deadline of
    the previous move pending. *)
Lemma suspended_move_keeps_deadline
    w (ws : Conn) st (t : TimerId) raw command p now currentTime sendThrows :
  clients_get w ws = Some st →
  timers w !! t = Some ws →
  parse_command raw = inr command →
  move command (currentPosition st) = Some p →
  movementsCollection w = true →
  ∃ w1 out1,
    step w (Message ws raw now currentTime false sendThrows) = Some (w1, out1)
    ∧ position_of w1 ws = Some p
    ∧ timers w1 !! t = Some ws.
Proof.
  intros Hget Ht Hparse Hmove Hcoll.
  pose proof (open_session_position now currentTime st) as Hopen.
  simpl. unfold onMessage. rewrite Hget, Hparse.
  destruct (open_session now currentTime st) as [opened logOpen]. simpl in Hopen.
  rewrite Hopen, Hmove, Hcoll. cbn [negb].
  eexists _, _. split; [reflexivity|]. unfold position_of. simpl.
  by rewrite lookup_insert_eq.
Qed.

(** C6, as the handler has it: while [movementsCollection] is set, neither
    a synchronous throw of [insertOne] nor the rejection of its promise
    keeps the handler of an accepted move from handing the
    [positionUpdate] of that move to [ws.send] and from rearming the
    deadline: the timeout recorded for the socket is cleared, a new one is
    set for it and recorded in the client's object.  The handler resumes
    the same way whether the promise is fulfilled or rejected. *)
Theorem C6_failed_write_does_not_block_reply
    w (ws : Conn) st raw command p now currentTime sendThrows :
  clients_get w ws = Some st →
  parse_command raw = inr command →
  move command (currentPosition st) = Some p →
  movementsCollection w = true →
  (∃ w' out,
     step w (Message ws raw now currentTime true sendThrows) = Some (w', out)
     ∧ replied_and_rearmed ws p w w' out)
  ∧ (∃ w1 out1,
       step w (Message ws raw now currentTime false sendThrows) = Some (w1, out1)
       ∧ suspended w1 = suspended w ++ [mkContinuation ws p]
       ∧ is_Some (objects w1 !! ws))
  ∧ (∀ w2 i rejected sendThrows2,
       suspended w2 !! i = Some (mkContinuation ws p) →
       is_Some (objects w2 !! ws) →
       ∃ w3 out3,
         step w2 (InsertSettled i rejected sendThrows2) = Some (w3, out3)
         ∧ replied_and_rearmed ws p w2 w3 out3).
Proof.
  intros Hget Hparse Hmove Hcoll.
  pose proof (open_session_position now currentTime st) as Hopen.
  pose proof (open_session_timer now currentTime st) as Htimer.
  pose proof Hget as [_ Hst]%clients_get_Some.
  split; [|split].
  - simpl. unfold onMessage. rewrite Hget, Hparse.
    destruct (open_session now currentTime st) as [opened logOpen].
    simpl in Hopen, Htimer.
    rewrite Hopen, Hmove, Hcoll. cbn [negb].
    pose proof (finishMove_replies sendThrows (mkContinuation ws p)
      (set_object ws (record_move now p opened) w)) as Hfin.
    destruct (finishMove _ _ _) as [w2 out2]. simpl in Hfin.
    eexists _, _. split; [reflexivity|].
    apply replied_and_rearmed_app.
    apply (replied_and_rearmed_app ws p w w2 [_; _] out2).
    apply (replied_and_rearmed_recorded ws p w st (record_move now p opened));
      [done|exact Htimer|].
    apply Hfin. rewrite lookup_insert_eq. eauto.
  - simpl. unfold onMessage. rewrite Hget, Hparse.
    destruct (open_session now currentTime st) as [opened logOpen]. simpl in Hopen.
    rewrite Hopen, Hmove, Hcoll. cbn [negb].
    eexists _, _. split; [reflexivity|]. simpl. rewrite lookup_insert_eq. eauto.
  - intros w2 i rejected sT2 Hk Hobj. simpl. unfold onInsertSettled. rewrite Hk.
    pose proof (finishMove_replies sT2 (mkContinuation ws p)
      (set_suspended (delete i (suspended w2)) w2) Hobj) as Hfin.
    destruct (finishMove _ _ _) as [w3 out3]. simpl in Hfin.
    eexists _, _. split; [reflexivity|].
    apply replied_and_rearmed_app.
    by apply (replied_and_rearmed_suspended ws p (delete i (suspended w2))).
Qed.

(** In [active_world] timeout 0 is pending and recorded: the rearm clears
    it and sets timeout 1. *)
Lemma C6_failed_write_does_not_block_reply_witness :
  (∃ w' out,
     step active_world (Message 0%nat (say "up") 200 200 true never_throws)
     = Some (w', out)
     ∧ replied_and_rearmed 0%nat (mkPosition 1 1) active_world w' out)
  ∧ (∃ w1 out1,
       step active_world (Message 0%nat (say "up") 200 200 false never_throws)
       = Some (w1, out1)
       ∧ suspended w1
         = suspended active_world ++ [mkContinuation 0%nat (mkPosition 1 1)]
       ∧ is_Some (objects w1 !! 0%nat))
  ∧ (∀ w2 i rejected sendThrows2,
       suspended w2 !! i = Some (mkContinuation 0%nat (mkPosition 1 1)) →
       is_Some (objects w2 !! 0%nat) →
       ∃ w3 out3,
         step w2 (InsertSettled i rejected sendThrows2) = Some (w3, out3)
         ∧ replied_and_rearmed 0%nat (mkPosition 1 1) w2 w3 out3).
Proof.
  apply (C6_failed_write_does_not_block_reply active_world 0%nat
           playing (say "up") "up" (mkPosition 1 1)
           200 200 never_throws); reflexivity.
Defined.

(** C6 as stated fails while the collection is not set: the server can be
    in [booting_world], the move "up" is accepted and recorded there, and
    yet no [positionUpdate] is sent and no deadline is armed. *)
Lemma C6_counterexample_collection_not_set :
  reachable booting_world
  ∧ ∃ w' out,
      step booting_world (Message 0%nat (say "up") 100 100 false never_throws)
      = Some (w', out)
      ∧ position_of w' 0%nat = Some (mkPosition 0 1)
      ∧ sent out = []
      ∧ timers w' = ∅
      ∧ ¬ replied_and_rearmed 0%nat (mkPosition 0 1) booting_world w' out.
Proof.
  split.
  - exists [Connection 0%nat "c0ffee" never_throws]. eexists. vm_compute. reflexivity.
  - eexists _, _. split; [reflexivity|]. repeat split.
    intros [Hsent _]. vm_compute in Hsent. by apply elem_of_nil in Hsent.
Qed.

(** ** Timeouts that find no session *)

(** C7, as the callback has it: when a timeout fires for a socket whose
    record is gone or has no open game, nothing is sent and no record
    changes, the world only loses the timeout that fired, and the single
    thing logged is the warning the callback emits before it calls
    [endGame]. *)
Theorem C7_stale_timeout_only_warns
    w (t : TimerId) (ws : Conn) endTime sendThrows :
  timers w !! t = Some ws →
  (clients_get w ws = None
   ∨ ∃ st, clients_get w ws = Some st ∧ currentGameId st = None) →
  step w (TimerFires t endTime sendThrows)
  = Some (clearTimeout (Some t) w, [Log Warn InactivityDetected]).
Proof.
  intros Ht Hgone. simpl. unfold onTimer. rewrite Ht.
  rewrite endGame_guard; [done|]. by rewrite clients_get_clearTimeout.
Qed.

Lemma C7_stale_timeout_only_warns_witness :
  step (fst (run_from initial_world late_rearm))
       (TimerFires 1%nat 20000 never_throws)
  = Some (clearTimeout (Some 1%nat) (fst (run_from initial_world late_rearm)),
          [Log Warn InactivityDetected]).
Proof.
  apply (C7_stale_timeout_only_warns (fst (run_from initial_world late_rearm))
           1%nat 0%nat 20000 never_throws).
  - reflexivity.
  - right. eexists. split; reflexivity.
Defined.

(** C7 as stated fails on the logging: after [late_rearm] the client has no
    open game and timeout 1 is pending for it; when that timeout fires, a
    warning is logged. *)
Lemma C7_counterexample_warning_logged :
  ∃ w out0 st w' out,
    run initial_world late_rearm = Some (w, out0)
    ∧ timers w !! 1%nat = Some 0%nat
    ∧ clients_get w 0%nat = Some st
    ∧ currentGameId st = None
    ∧ step w (TimerFires 1%nat 20000 never_throws) = Some (w', out)
    ∧ warnings out = [InactivityDetected]
    ∧ warnings out ≠ [].
Proof.
  eexists _, _, _, _, _. split; [vm_compute; reflexivity|].
  split; [reflexivity|]. split; [reflexivity|]. split; [reflexivity|].
  split; [vm_compute; reflexivity|]. split; [reflexivity|discriminate].
Qed.

(** ** Summaries are sent by timeouts of registered sockets only *)

Lemma onMessage_summaries sendThrows now currentTime insertOneThrows (ws : Conn) raw w :
  summaries (snd (onMessage sendThrows now currentTime insertOneThrows ws raw w)) = [].
Proof.
  unfold onMessage, open_session, finishMove, trySend.
  destruct (clients_get w ws) as [st|]; [|done].
  destruct (parse_command raw) as [e|command].
  { simpl. by destruct (sendThrows _). }
  destruct (currentGameId st);
    (destruct (move command _) as [newPosition|];
     [ destruct (movementsCollection w); [|done];
       destruct insertOneThrows; [|done];
       simpl; rewrite lookup_insert_eq; simpl; by destruct (sendThrows _)
     | simpl; by destruct (sendThrows _) ]).
Qed.

Lemma onInsertSettled_summaries sendThrows rejected i w w' out :
  onInsertSettled sendThrows rejected i w = Some (w', out) → summaries out = [].
Proof.
  unfold onInsertSettled, finishMove.
  destruct (suspended w !! i) as [k|]; [|done]. simpl.
  destruct (objects w !! k_ws k); intros [= <- <-];
    by destruct rejected, (sendThrows _).
Qed.

Lemma endGame_summaries sendThrows endTime (ws : Conn) w :
  ∀ c : Conn, c ∈ summaries (snd (endGame sendThrows endTime ws w)) →
              c = ws ∧ ws ∈ clients w.
Proof.
  intros c. destruct (clients_get w ws) as [st|] eqn:Hget.
  2: { rewrite endGame_guard by eauto. by intros ?%elem_of_nil. }
  destruct (currentGameId st) as [gid|] eqn:Hgid.
  2: { rewrite endGame_guard by eauto. by intros ?%elem_of_nil. }
  apply clients_get_Some in Hget as [Hin Hst].
  unfold endGame, clients_get. destruct (decide (ws ∈ clients w)); [|done].
  rewrite Hst, Hgid. unfold trySend.
  destruct (startPosition st), (lastPosition st); simpl;
    destruct (sendThrows (GameOver _ _ _ _)), (sendThrows (PositionUpdate _ _));
    simpl; by intros ->%list_elem_of_singleton.
Qed.

(** A [gameOver] goes only to a socket that has its record. *)
Lemma step_summaries w ev w' out (c : Conn) :
  step w ev = Some (w', out) → c ∈ summaries out → c ∈ clients w.
Proof.
  destruct ev as [ws' uuid sT|ws' raw now ct iT sT|i r sT|t e sT|ws'|ws'|]; simpl.
  - destruct (objects w !! ws'); [done|]. intros [= <- <-]. unfold trySend.
    simpl. destruct (sT _); by intros ?%elem_of_nil.
  - intros [= Hstep]. pose proof (onMessage_summaries sT now ct iT ws' raw w) as H.
    rewrite Hstep in H. simpl in H. rewrite H. by intros ?%elem_of_nil.
  - intros ->%onInsertSettled_summaries. by intros ?%elem_of_nil.
  - unfold onTimer. destruct (timers w !! t) as [ws|]; [|done].
    pose proof (endGame_summaries sT e ws (clearTimeout (Some t) w) c) as H.
    destruct (endGame _ _ _ _) as [w1 out1]. intros [= <- <-]. simpl.
    intros [-> Hin]%H. by rewrite clearTimeout_clients in Hin.
  - unfold onClose. destruct (clients_get w ws'); intros [= <- <-];
      by intros ?%elem_of_nil.
  - unfold onError. destruct (clients_get w ws'); intros [= <- <-];
      by intros ?%elem_of_nil.
  - intros [= <- <-]. by intros ?%elem_of_nil.
Qed.

(** Objects are never dropped, and a socket that lost its record never
    gets one again. *)
Lemma step_unregistered w ev w' out (c : Conn) :
  step w ev = Some (w', out) →
  is_Some (objects w !! c) → c ∉ clients w →
  is_Some (objects w' !! c) ∧ c ∉ clients w'.
Proof.
  intros Hstep Hobj Hnin.
  assert (is_Some (position_of w c)) as Hpos
    by (unfold position_of; by apply fmap_is_Some).
  assert (∀ w1, position_of w1 c = position_of w c → is_Some (objects w1 !! c))
    as Hsame.
  { intros w1 H1. rewrite <- H1 in Hpos. unfold position_of in Hpos.
    by apply fmap_is_Some in Hpos. }
  destruct ev as [ws' uuid sT|ws' raw now ct iT sT|i r sT|t e sT|ws'|ws'|];
    simpl in Hstep.
  - destruct (objects w !! ws') eqn:Hnew; [done|]. injection Hstep as <- <-.
    assert (ws' ≠ c) as Hne by (intros ->; rewrite Hnew in Hobj; by destruct Hobj).
    simpl. rewrite lookup_insert_ne by done. split; [done|]. set_solver.
  - injection Hstep as Hstep.
    pose proof (onMessage_clients sT now ct iT ws' raw w) as Hcl.
    rewrite Hstep in Hcl. simpl in Hcl. rewrite Hcl. split; [|done].
    destruct (decide (c = ws')) as [->|Hne].
    + pose proof (onMessage_dropped sT now ct iT ws' raw w) as Hd.
      rewrite Hstep in Hd. simpl in Hd. rewrite Hd; [done|]. left.
      unfold clients_get. by destruct (decide (ws' ∈ clients w)).
    + apply Hsame. pose proof (onMessage_position_other sT now ct iT ws' c raw w Hne) as Hp.
      by rewrite Hstep in Hp.
  - destruct (onInsertSettled_position sT r i w w' out c Hstep) as [Hp Hcl].
    rewrite Hcl. split; [by apply Hsame|done].
  - unfold onTimer in Hstep. destruct (timers w !! t) as [ws|]; [|done].
    pose proof (endGame_clients sT e ws (clearTimeout (Some t) w)) as Hcl.
    destruct (endGame_position sT e ws (clearTimeout (Some t) w))
      as [Hguard|((st0 & Hget0 & _) & _ & Hframe)].
    + rewrite Hguard in Hstep. by injection Hstep as <- <-.
    + destruct (endGame sT e ws (clearTimeout (Some t) w)) as [w1 out1].
      injection Hstep as <- <-. cbn [fst] in *.
      rewrite Hcl, clearTimeout_clients. split; [|done].
      apply Hsame. rewrite Hframe; [done|]. intros ->.
      rewrite clients_get_clearTimeout in Hget0.
      by apply clients_get_Some in Hget0 as [? _].
  - injection Hstep as Hstep. destruct (onClose_objects ws' w) as [Ho Hc].
    rewrite Hstep in Ho, Hc. simpl in Ho, Hc. rewrite Ho. split; [done|].
    destruct (decide (c = ws')) as [->|Hne]; [|by rewrite Hc].
    unfold onClose, clients_get in Hstep.
    destruct (decide (ws' ∈ clients w)); [done|]. by injection Hstep as <- _.
  - injection Hstep as Hstep. destruct (onError_objects ws' w) as [Ho Hc].
    rewrite Hstep in Ho, Hc. simpl in Ho, Hc. rewrite Ho. split; [done|].
    destruct (decide (c = ws')) as [->|Hne]; [|by rewrite Hc].
    unfold onError, clients_get in Hstep.
    destruct (decide (ws' ∈ clients w)); [done|]. by injection Hstep as <- _.
  - by injection Hstep as <- <-.
Qed.

Lemma summaries_app out1 out2 :
  summaries (out1 ++ out2) = summaries out1 ++ summaries out2.
Proof. unfold summaries. apply omap_app. Qed.

Lemma run_unregistered (c : Conn) evs :
  ∀ w w' out,
    run w evs = Some (w', out) →
    is_Some (objects w !! c) → c ∉ clients w →
    c ∉ summaries out.
Proof.
  induction evs as [|ev evs IH]; intros w w' out Hrun Hobj Hnin; simpl in Hrun.
  - injection Hrun as <- <-. by intros ?%elem_of_nil.
  - destruct (step w ev) as [[w1 out1]|] eqn:Hstep; [|done].
    destruct (run w1 evs) as [[w2 out2]|] eqn:Hrun'; [|done].
    injection Hrun as <- <-.
    destruct (step_unregistered w ev w1 out1 c Hstep Hobj Hnin) as [Hobj1 Hnin1].
    rewrite summaries_app. intros [H|H]%elem_of_app.
    + by apply (step_summaries w ev w1 out1 c Hstep) in H.
    + by apply (IH w1 w2 out2 Hrun' Hobj1 Hnin1).
Qed.

Lemma active_world_reachable : reachable active_world.
Proof. exists first_move. eexists. vm_compute. reflexivity. Defined.

(** ** Closing a connection *)

(** C8: when a socket with an open session closes or errors, the handler
    sends nothing, removes the record from [clients] and leaves no timeout
    pending for the socket; and whatever happens afterwards, no [gameOver]
    is ever handed to that socket. *)
Theorem C8_close_emits_no_summary w (ws : Conn) st ev :
  reachable w →
  clients_get w ws = Some st →
  is_Some (currentGameId st) →
  ev = Close ws ∨ ev = SocketErrors ws →
  ∃ w' out,
    step w ev = Some (w', out)
    ∧ sent out = []
    ∧ (ws ∉ clients w')
    ∧ (∀ t : TimerId, timers w' !! t ≠ Some ws)
    ∧ ∀ evs w'' out', run w' evs = Some (w'', out') → ws ∉ summaries out'.
Proof.
  intros Hwf%reachable_wf Hget _ Hev.
  pose proof Hget as [Hin Hst]%clients_get_Some.
  assert (∃ site out,
    step w ev = Some (clients_delete ws (clearTimeout (inactivityTimer st) w), out)
    ∧ out = [Log site.1 site.2]) as ((lvl & site) & out & Hstep & ->).
  { destruct Hev as [-> | ->]; simpl.
    - unfold onClose. rewrite Hget. by eexists (_, _), _.
    - unfold onError. rewrite Hget. by eexists (_, _), _. }
  eexists _, _. split; [exact Hstep|]. split; [done|]. split; [|split].
  - simpl. rewrite clearTimeout_clients. set_solver.
  - intros t Ht. simpl in Ht.
    change (timers (clearTimeout (inactivityTimer st) w) !! t = Some ws) in Ht.
    apply clearTimeout_timers in Ht as [Ht Hne].
    destruct (wf_owner w Hwf t ws Ht) as (st0 & Hst0 & Ht0). congruence.
  - intros evs w'' out' Hrun. apply (run_unregistered ws evs _ _ _ Hrun).
    + simpl. rewrite clearTimeout_objects. eauto.
    + simpl. rewrite clearTimeout_clients. set_solver.
Qed.

Lemma C8_close_emits_no_summary_witness :
  ∃ w' out,
    step active_world (Close 0%nat) = Some (w', out)
    ∧ sent out = []
    ∧ (0%nat ∉ clients w')
    ∧ (∀ t : TimerId, timers w' !! t ≠ Some 0%nat)
    ∧ ∀ evs w'' out', run w' evs = Some (w'', out') → 0%nat ∉ summaries out'.
Proof.
  apply (C8_close_emits_no_summary active_world 0%nat playing (Close 0%nat)).
  - exact active_world_reachable.
  - reflexivity.
  - simpl. eexists. reflexivity.
  - left. reflexivity.
Defined.

(** ** Cancel and rearm *)

(** No two timeouts are ever pending for one socket. *)
Lemma pending_timeout_unique w (t1 t2 : TimerId) (ws : Conn) :
  reachable w → timers w !! t1 = Some ws → timers w !! t2 = Some ws → t1 = t2.
Proof.
  intros Hwf%reachable_wf H1 H2.
  destruct (wf_owner w Hwf t1 ws H1) as (st1 & Hst1 & Ht1).
  destruct (wf_owner w Hwf t2 ws H2) as (st2 & Hst2 & Ht2). congruence.
Qed.

(** The rearm at the end of the handler cancels the recorded timeout. *)
Lemma finishMove_supersedes sendThrows k w st (t : TimerId) :
  wf w → objects w !! k_ws k = Some st → inactivityTimer st = Some t →
  timers (fst (finishMove sendThrows k w)) !! t = None
  ∧ timers (fst (finishMove sendThrows k w)) !! nextTimer w = Some (k_ws k).
Proof.
  intros Hwf Hst Ht. pose proof (wf_fresh w Hwf _ _ _ Hst Ht) as Hlt.
  unfold finishMove. rewrite Hst, Ht. simpl. split.
  - rewrite lookup_insert_ne by lia. apply lookup_delete_eq.
  - apply lookup_insert_eq.
Qed.

Lemma finishMove_timers sendThrows k w (t : TimerId) :
  (t < nextTimer w)%nat → timers w !! t = None →
  timers (fst (finishMove sendThrows k w)) !! t = None
  ∧ (t < nextTimer (fst (finishMove sendThrows k w)))%nat.
Proof.
  intros Hlt Hnone. unfold finishMove.
  destruct (objects w !! k_ws k) as [st|]; [|done]. simpl.
  rewrite clearTimeout_nextTimer. split; [|lia].
  rewrite lookup_insert_ne by lia.
  destruct (timers (clearTimeout (inactivityTimer st) w) !! t) as [c|] eqn:H; [|done].
  apply clearTimeout_timers in H as [H _]. congruence.
Qed.

Lemma endGame_timers sendThrows endTime (ws : Conn) w (t : TimerId) :
  (t < nextTimer w)%nat → timers w !! t = None →
  timers (fst (endGame sendThrows endTime ws w)) !! t = None
  ∧ (t < nextTimer (fst (endGame sendThrows endTime ws w)))%nat.
Proof.
  intros Hlt Hnone. unfold endGame.
  destruct (clients_get w ws) as [st|]; [|done].
  destruct (currentGameId st); [|done].
  assert (timers (clearTimeout (inactivityTimer st) w) !! t = None) as H.
  { destruct (timers (clearTimeout (inactivityTimer st) w) !! t) eqn:H; [|done].
    apply clearTimeout_timers in H as [H _]. congruence. }
  destruct (startPosition st), (lastPosition st); simpl;
    by rewrite clearTimeout_nextTimer.
Qed.

(** A timeout that was created and is no longer pending stays that way. *)
Lemma step_cancelled w ev w' out (t : TimerId) :
  step w ev = Some (w', out) →
  (t < nextTimer w)%nat → timers w !! t = None →
  timers w' !! t = None ∧ (t < nextTimer w')%nat.
Proof.
  intros Hstep Hlt Hnone.
  assert (∀ o, timers (clearTimeout o w) !! t = None) as Hclear.
  { intros o. destruct (timers (clearTimeout o w) !! t) eqn:H; [|done].
    apply clearTimeout_timers in H as [H _]. congruence. }
  destruct ev as [ws' uuid sT|ws' raw now ct iT sT|i r sT|t' e sT|ws'|ws'|];
    simpl in Hstep.
  - destruct (objects w !! ws'); [done|]. by injection Hstep as <- <-.
  - injection Hstep as Hstep. unfold onMessage in Hstep.
    destruct (clients_get w ws') as [st|]; [|by injection Hstep as <- <-].
    destruct (parse_command raw) as [err|command]; [by injection Hstep as <- <-|].
    destruct (open_session now ct st) as [opened logOpen].
    destruct (move command (currentPosition opened)) as [newPosition|];
      [|by injection Hstep as <- <-].
    destruct (movementsCollection w); cbn [negb] in Hstep;
      [|by injection Hstep as <- <-].
    destruct iT; [|by injection Hstep as <- <-].
    pose proof (finishMove_timers sT (mkContinuation ws' newPosition)
      (set_object ws' (record_move now newPosition opened) w) t Hlt Hnone) as H.
    destruct (finishMove _ _ _). by injection Hstep as <- <-.
  - unfold onInsertSettled in Hstep. destruct (suspended w !! i) as [k|]; [|done].
    pose proof (finishMove_timers sT k (set_suspended (delete i (suspended w)) w)
                  t Hlt Hnone) as H.
    destruct (finishMove _ _ _). by injection Hstep as <- <-.
  - unfold onTimer in Hstep. destruct (timers w !! t') as [ws|]; [|done].
    pose proof (endGame_timers sT e ws (clearTimeout (Some t') w) t) as H.
    rewrite clearTimeout_nextTimer in H. specialize (H Hlt (Hclear _)).
    destruct (endGame _ _ _ _). by injection Hstep as <- <-.
  - unfold onClose in Hstep. destruct (clients_get w ws') as [st|];
      injection Hstep as <- <-; [|done].
    simpl. by rewrite clearTimeout_nextTimer.
  - unfold onError in Hstep. destruct (clients_get w ws') as [st|];
      injection Hstep as <- <-; [|done].
    simpl. by rewrite clearTimeout_nextTimer.
  - by injection Hstep as <- <-.
Qed.

(** A cancelled timeout never fires: in no later world is it pending. *)
Lemma cancelled_timeout_never_fires (t : TimerId) evs :
  ∀ w w' out endTime sendThrows,
    (t < nextTimer w)%nat → timers w !! t = None →
    run w evs = Some (w', out) →
    step w' (TimerFires t endTime sendThrows) = None.
Proof.
  induction evs as [|ev evs IH]; intros w w' out e sT Hlt Hnone Hrun;
    simpl in Hrun.
  - injection Hrun as <- <-. simpl. unfold onTimer. by rewrite Hnone.
  - destruct (step w ev) as [[w1 out1]|] eqn:Hstep; [|done].
    destruct (run w1 evs) as [[w2 out2]|] eqn:Hrun'; [|done].
    injection Hrun as <- <-.
    destruct (step_cancelled w ev w1 out1 t Hstep Hlt Hnone) as [H1 H2].
    by apply (IH w1 w2 out2).
Qed.

(** C2, at the input where the code departs from it.  In [late_rearm] the
    second "up" is accepted at 9000, while timeout 0 of the first move is
    still pending.  The handler only cancels and rearms after its [await],
    so timeout 0 is not cancelled: it fires at 10100, ends the game (the
    distance already counts the second move) and resets the position.
    When the write settles the handler sends the position (0,2) of the
    game that is over and arms timeout 1 for a client with no open game. *)
Theorem C2_deadline_fires_after_accepted_move :
  ∃ w out,
    run initial_world late_rearm = Some (w, out)
    ∧ sent out
      = [ (0%nat, InitialState 0 0);
          (0%nat, PositionUpdate 0 1);
          (0%nat, GameOver (mkGameId 100 "c0ff") (SqrtFixed2 4) (Some 100) 10100);
          (0%nat, PositionUpdate 0 0);
          (0%nat, PositionUpdate 0 2) ]
    ∧ clients_get w 0%nat
      = Some (mkClientState "c0ffee" None None origin None None (Some 1%nat) None)
    ∧ timers w !! 1%nat = Some 0%nat.
Proof.
  eexists _, _. split; [vm_compute; reflexivity|]. repeat split.
Qed.

(** * Further properties of the handlers *)

(** ** What happens to records *)

Lemma finishMove_object_other sendThrows k w (c : Conn) :
  c ≠ k_ws k →
  objects (fst (finishMove sendThrows k w)) !! c = objects w !! c.
Proof.
  intros Hne. unfold finishMove.
  destruct (objects w !! k_ws k) as [st|]; [|done]. simpl.
  rewrite clearTimeout_objects. by rewrite lookup_insert_ne.
Qed.

Lemma onMessage_object_other
    sendThrows now currentTime insertOneThrows (ws c : Conn) raw w :
  c ≠ ws →
  objects (fst (onMessage sendThrows now currentTime insertOneThrows ws raw w)) !! c
  = objects w !! c.
Proof.
  intros Hne. unfold onMessage. destruct (clients_get w ws) as [st|]; [|done].
  destruct (parse_command raw) as [e|command]; [done|].
  destruct (open_session now currentTime st) as [opened logOpen].
  assert (∀ st', objects (set_object ws st' w) !! c = objects w !! c) as Hset.
  { intros st'. simpl. by rewrite lookup_insert_ne. }
  destruct (move command (currentPosition opened)) as [newPosition|]; [|apply Hset].
  destruct (movementsCollection w); cbn [negb fst]; [|apply Hset].
  destruct insertOneThrows.
  - pose proof (finishMove_object_other sendThrows (mkContinuation ws newPosition)
      (set_object ws (record_move now newPosition opened) w) c Hne) as H.
    destruct (finishMove _ _ _). cbn [fst] in *. by rewrite H.
  - simpl. by rewrite lookup_insert_ne.
Qed.

(** Every record of the world after a turn is a record of the world
    before, changed by one of the handlers' assignments, or the fresh
    record of a socket that just connected. *)
Lemma step_records w ev w' out (c : Conn) st' :
  step w ev = Some (w', out) →
  objects w' !! c = Some st' →
  (∃ st, objects w !! c = Some st ∧ record_step st st')
  ∨ (objects w !! c = None ∧ ∃ uuid, st' = new_client uuid).
Proof.
  intros Hstep Hst'.
  destruct ev as [ws uuid sT|ws raw now ct iT sT|i r sT|t e sT|ws|ws|];
    simpl in Hstep.
  - destruct (objects w !! ws) eqn:Hnew; [done|]. injection Hstep as <- <-.
    simpl in Hst'. destruct (decide (ws = c)) as [->|Hne].
    + rewrite lookup_insert_eq in Hst'. injection Hst' as <-. right. eauto.
    + rewrite lookup_insert_ne in Hst' by done. left. eauto using rs_same.
  - injection Hstep as Hstep. left.
    destruct (decide (c = ws)) as [->|Hne].
    2: { pose proof (onMessage_object_other sT now ct iT ws c raw w Hne) as H.
         rewrite Hstep in H. simpl in H. rewrite H in Hst'. eauto using rs_same. }
    destruct (clients_get w ws) as [st|] eqn:Hget.
    2: { pose proof (onMessage_dropped sT now ct iT ws raw w) as Hd.
         rewrite Hstep in Hd. simpl in Hd. rewrite Hd in Hst' by eauto.
         eauto using rs_same. }
    destruct (parse_command raw) as [err|command] eqn:Hparse.
    { pose proof (onMessage_dropped sT now ct iT ws raw w) as Hd.
      rewrite Hstep in Hd. simpl in Hd. rewrite Hd in Hst' by eauto.
      eauto using rs_same. }
    destruct (onMessage_object sT now ct iT ws raw command w st Hget Hparse)
      as (tm & Hobj).
    rewrite Hstep in Hobj. simpl in Hobj. rewrite Hobj in Hst'. injection Hst' as <-.
    apply clients_get_Some in Hget as [_ Hst]. exists st. split; [done|].
    destruct (move command (currentPosition st)) eqn:Hmv.
    + by apply rs_move with command.
    + apply rs_open.
  - left. unfold onInsertSettled in Hstep.
    destruct (suspended w !! i) as [k|]; [|done].
    pose proof (finishMove_object sT k (set_suspended (delete i (suspended w)) w)) as Ho.
    pose proof (finishMove_object_other sT k
                  (set_suspended (delete i (suspended w)) w) c) as Hoo.
    destruct (finishMove _ _ _) as [w1 out1]. injection Hstep as <- <-.
    simpl in Ho, Hoo. destruct (decide (c = k_ws k)) as [->|Hne].
    + rewrite Ho in Hst'. apply fmap_Some in Hst' as (st & Hst & ->).
      eauto using rs_rearm.
    + rewrite Hoo in Hst' by done. eauto using rs_same.
  - left. unfold onTimer in Hstep. destruct (timers w !! t) as [ws|]; [|done].
    destruct (clients_get (clearTimeout (Some t) w) ws) as [st|] eqn:Hget.
    2: { rewrite endGame_guard in Hstep by eauto. injection Hstep as <- <-.
         eauto using rs_same. }
    destruct (currentGameId st) as [gid|] eqn:Hgid.
    2: { rewrite endGame_guard in Hstep by eauto. injection Hstep as <- <-.
         eauto using rs_same. }
    destruct (endGame_active sT e ws _ st gid Hget Hgid) as (logs & _ & Heq).
    rewrite Heq in Hstep. injection Hstep as <- <-.
    apply clients_get_Some in Hget as [_ Hst].
    simpl in Hst, Hst'. rewrite clearTimeout_objects in Hst'.
    destruct (decide (ws = c)) as [->|Hne].
    + rewrite lookup_insert_eq in Hst'. injection Hst' as <-.
      exists st. split; [done|]. apply rs_clear. by rewrite Hgid.
    + rewrite lookup_insert_ne in Hst' by done. eauto using rs_same.
  - left. injection Hstep as Hstep. destruct (onClose_objects ws w) as [Ho _].
    rewrite Hstep in Ho. simpl in Ho. rewrite Ho in Hst'. eauto using rs_same.
  - left. injection Hstep as Hstep. destruct (onError_objects ws w) as [Ho _].
    rewrite Hstep in Ho. simpl in Ho. rewrite Ho in Hst'. eauto using rs_same.
  - left. injection Hstep as <- <-. eauto using rs_same.
Qed.

Lemma session_ok_step st st' : session_ok st → record_step st st' → session_ok st'.
Proof.
  intros Hok Hrs. destruct Hrs as [st|st t|st now ct t|st now ct t command p Hmv|st Hact].
  - done.
  - exact Hok.
  - unfold session_ok, open_session in *.
    destruct (currentGameId st) eqn:Hgid; simpl; rewrite ?Hgid; [done|].
    destruct Hok as (_ & Hl & Hm & _ & Hp). rewrite Hp. eauto 10.
  - unfold session_ok, open_session in *.
    destruct (currentGameId st) eqn:Hgid; simpl; rewrite ?Hgid.
    + destruct Hok as (Hs & Hg & _). eauto 10.
    + destruct Hok as (_ & _ & _ & _ & Hp). rewrite Hp. eauto 10.
  - unfold session_ok. simpl. done.
Qed.

Lemma sessions_ok_step w ev w' out :
  sessions_ok w → step w ev = Some (w', out) → sessions_ok w'.
Proof.
  intros Hok Hstep c st' Hst'.
  destruct (step_records w ev w' out c st' Hstep Hst')
    as [(st & Hst & Hrs)|(_ & uuid & ->)].
  - eapply session_ok_step; [|done]. by apply (Hok c).
  - done.
Qed.

Lemma sessions_ok_run evs :
  ∀ w w' out, sessions_ok w → run w evs = Some (w', out) → sessions_ok w'.
Proof.
  induction evs as [|ev evs IH]; intros w w' out Hok; simpl.
  - by intros [= <- <-].
  - destruct (step w ev) as [[w1 out1]|] eqn:Hstep; [|done].
    destruct (run w1 evs) as [[w2 out2]|] eqn:Hrun; [|done].
    intros [= <- <-]. eapply IH; [|done]. by eapply sessions_ok_step.
Qed.

Lemma sessions_ok_initial : sessions_ok initial_world.
Proof. intros c st H. simpl in H. by rewrite lookup_empty in H. Qed.

Lemma reachable_sessions_ok w : reachable w → sessions_ok w.
Proof.
  intros (evs & out & Hrun).
  eapply sessions_ok_run; [apply sessions_ok_initial|done].
Qed.

(** X1: in every world the server can reach, a record with a start
    position has it at (0,0) and has a game open; a record without a game
    has [startPosition], [lastPosition], [lastMoveTime] and
    [gameStartTime] null and its position at (0,0), while its
    [inactivityTimer] may still hold a timeout; and a recorded last
    position is the current position. *)
Theorem X1_sessions_start_at_origin w (ws : Conn) st :
  reachable w →
  objects w !! ws = Some st →
  (∀ sp, startPosition st = Some sp → sp = origin ∧ is_Some (currentGameId st))
  ∧ (currentGameId st = None →
     st = mkClientState (clientId st) None None origin None None
                        (inactivityTimer st) None)
  ∧ (∀ lp, lastPosition st = Some lp → lp = currentPosition st).
Proof.
  intros Hreach Hst. pose proof (reachable_sessions_ok w Hreach ws st Hst) as Hok.
  unfold session_ok in Hok. destruct (currentGameId st) as [gid|] eqn:Hgid.
  - destruct Hok as (Hs & _ & Hl). split; [|split].
    + intros sp Hsp. split; [congruence|eauto].
    + done.
    + intros lp Hlp. destruct Hl as [[Hl _]|[Hl _]]; congruence.
  - destruct Hok as (Hs & Hl & Hm & Hg & Hp). split; [|split].
    + intros sp Hsp. congruence.
    + intros _. destruct st; simpl in *. congruence.
    + intros lp Hlp. congruence.
Qed.

Lemma X1_sessions_start_at_origin_witness :
  (∀ sp, startPosition playing = Some sp → sp = origin ∧ is_Some (currentGameId playing))
  ∧ (currentGameId playing = None →
     playing = mkClientState (clientId playing) None None origin None None
                             (inactivityTimer playing) None)
  ∧ (∀ lp, lastPosition playing = Some lp → lp = currentPosition playing).
Proof.
  apply (X1_sessions_start_at_origin active_world 0%nat playing).
  - exact active_world_reachable.
  - reflexivity.
Defined.

(** ** The branch of [endGame] that never runs *)

Lemma onMessage_no_start_warning
    sendThrows now currentTime insertOneThrows (ws : Conn) raw w :
  existsb is_no_start_warning
    (snd (onMessage sendThrows now currentTime insertOneThrows ws raw w)) = false.
Proof.
  unfold onMessage, open_session, finishMove, trySend.
  destruct (clients_get w ws) as [st|]; [|done].
  destruct (parse_command raw) as [e|command].
  { simpl. by destruct (sendThrows _). }
  destruct (currentGameId st);
    (destruct (move command _) as [newPosition|];
     [ destruct (movementsCollection w); [|done];
       destruct insertOneThrows; [|done];
       simpl; rewrite lookup_insert_eq; simpl; by destruct (sendThrows _)
     | simpl; by destruct (sendThrows _) ]).
Qed.

Lemma onInsertSettled_no_start_warning sendThrows rejected i w w' out :
  onInsertSettled sendThrows rejected i w = Some (w', out) →
  existsb is_no_start_warning out = false.
Proof.
  unfold onInsertSettled, finishMove.
  destruct (suspended w !! i) as [k|]; [|done]. simpl.
  destruct (objects w !! k_ws k); intros [= <- <-];
    by destruct rejected, (sendThrows _).
Qed.

Lemma endGame_no_start_warning sendThrows endTime (ws : Conn) w :
  sessions_ok w →
  existsb is_no_start_warning (snd (endGame sendThrows endTime ws w)) = false.
Proof.
  intros Hok. unfold endGame.
  destruct (clients_get w ws) as [st|] eqn:Hget; [|done].
  apply clients_get_Some in Hget as [_ Hst].
  specialize (Hok ws st Hst). unfold session_ok in Hok.
  destruct (currentGameId st); [|done].
  destruct Hok as (-> & _). unfold trySend.
  destruct (lastPosition st); simpl;
    by destruct (sendThrows (GameOver _ _ _ _)), (sendThrows (PositionUpdate _ _)).
Qed.

Lemma step_no_start_warning w ev w' out :
  sessions_ok w → step w ev = Some (w', out) →
  existsb is_no_start_warning out = false.
Proof.
  intros Hok.
  destruct ev as [ws uuid sT|ws raw now ct iT sT|i r sT|t e sT|ws|ws|]; simpl.
  - destruct (objects w !! ws); [done|]. intros [= <- <-]. unfold trySend.
    simpl. by destruct (sT _).
  - intros [= Hstep].
    pose proof (onMessage_no_start_warning sT now ct iT ws raw w) as H.
    by rewrite Hstep in H.
  - apply onInsertSettled_no_start_warning.
  - unfold onTimer. destruct (timers w !! t) as [ws|]; [|done].
    pose proof (endGame_no_start_warning sT e ws (clearTimeout (Some t) w)) as H.
    destruct (endGame _ _ _ _) as [w1 out1]. intros [= <- <-]. simpl. apply H.
    intros c st. rewrite clearTimeout_objects. apply Hok.
  - unfold onClose. by destruct (clients_get w ws); intros [= <- <-].
  - unfold onError. by destruct (clients_get w ws); intros [= <- <-].
  - by intros [= <- <-].
Qed.

Lemma run_no_start_warning evs :
  ∀ w w' out, sessions_ok w → run w evs = Some (w', out) →
              existsb is_no_start_warning out = false.
Proof.
  induction evs as [|ev evs IH]; intros w w' out Hok; simpl.
  - by intros [= <- <-].
  - destruct (step w ev) as [[w1 out1]|] eqn:Hstep; [|done].
    destruct (run w1 evs) as [[w2 out2]|] eqn:Hrun; [|done].
    intros [= <- <-]. rewrite existsb_app.
    rewrite (step_no_start_warning w ev w1 out1 Hok Hstep). simpl.
    eapply IH; [|done]. by eapply sessions_ok_step.
Qed.

(** X2: whatever events the server receives from its start, the warning
    of line 92 ("game ended without a recorded start position") is never
    logged: the last branch of the distance computation in [endGame] is
    dead. *)
Theorem X2_no_start_warning_never_logged evs w out :
  run initial_world evs = Some (w, out) →
  Log Warn GameFinishedNoStart ∉ out.
Proof.
  intros Hrun Hin.
  pose proof (run_no_start_warning evs _ _ _ sessions_ok_initial Hrun) as Hno.
  apply not_true_iff_false in Hno. apply Hno.
  apply existsb_exists. exists (Log Warn GameFinishedNoStart).
  split; [by apply list_elem_of_In|done].
Qed.

Lemma X2_no_start_warning_never_logged_witness :
  Log Warn GameFinishedNoStart ∉ snd (run_from initial_world late_rearm).
Proof.
  apply (X2_no_start_warning_never_logged late_rearm
           (fst (run_from initial_world late_rearm))).
  vm_compute. reflexivity.
Defined.

(** X3: in every world the server can reach, the [gameOver] sent when a
    timeout ends a game reports the distance of the client's current
    position from the origin, sqrt(x^2 + y^2), and a start time that is
    set. *)
Theorem X3_summary_measures_from_origin
    w (t : TimerId) (ws : Conn) st gid endTime sendThrows :
  reachable w →
  timers w !! t = Some ws →
  clients_get w ws = Some st →
  currentGameId st = Some gid →
  ∃ w' out startTime,
    step w (TimerFires t endTime sendThrows) = Some (w', out)
    ∧ gameStartTime st = Some startTime
    ∧ (ws, GameOver gid
             (SqrtFixed2 (x (currentPosition st) ^ 2 + y (currentPosition st) ^ 2))
             (Some startTime) endTime) ∈ sent out.
Proof.
  intros Hreach Ht Hget Hgid.
  pose proof Hget as [_ Hst]%clients_get_Some.
  pose proof (reachable_sessions_ok w Hreach ws st Hst) as Hok.
  unfold session_ok in Hok. rewrite Hgid in Hok.
  destruct Hok as (Hsp & [startTime Hstart] & Hlast).
  assert (summary_distance st
          = SqrtFixed2 (x (currentPosition st) ^ 2 + y (currentPosition st) ^ 2))
    as Hdist.
  { unfold summary_distance, squared_distance. rewrite Hsp.
    destruct Hlast as [[-> _]|(-> & _ & ->)]; [|done].
    simpl. by rewrite !Z.sub_0_r. }
  simpl. unfold onTimer. rewrite Ht.
  destruct (endGame_active sendThrows endTime ws (clearTimeout (Some t) w) st gid)
    as (logs & Hlogs & ->); [by rewrite clients_get_clearTimeout|done|].
  eexists _, _, startTime. split; [reflexivity|]. split; [done|].
  unfold sent. cbn [omap list_omap]. rewrite !omap_app.
  apply elem_of_app. right. apply elem_of_app. left.
  fold (sent (trySend sendThrows ws
                (GameOver gid (summary_distance st) (gameStartTime st) endTime)
                GameOverSendFailed)).
  rewrite sent_trySend, Hdist, Hstart. apply list_elem_of_here.
Qed.

Lemma X3_summary_measures_from_origin_witness :
  ∃ w' out startTime,
    step active_world (TimerFires 0%nat 10100 never_throws) = Some (w', out)
    ∧ gameStartTime playing = Some startTime
    ∧ (0%nat, GameOver (mkGameId 100 "c0ff")
                (SqrtFixed2 (x (currentPosition playing) ^ 2
                             + y (currentPosition playing) ^ 2))
                (Some startTime) 10100) ∈ sent out.
Proof.
  apply (X3_summary_measures_from_origin active_world 0%nat 0%nat playing
           (mkGameId 100 "c0ff") 10100 never_throws).
  - exact active_world_reachable.
  - reflexivity.
  - reflexivity.
  - reflexivity.
Defined.

(** ** Deadlines *)

(** X4: in every world the server can reach, a pending timeout is the one
    recorded in the record of the socket whose game it will end, and it is
    the only one pending for that socket. *)
Theorem X4_one_deadline_per_socket w (t : TimerId) (ws : Conn) :
  reachable w →
  timers w !! t = Some ws →
  (∃ st, objects w !! ws = Some st ∧ inactivityTimer st = Some t)
  ∧ ∀ t' : TimerId, timers w !! t' = Some ws → t' = t.
Proof.
  intros Hwf%reachable_wf Ht.
  destruct (wf_owner w Hwf t ws Ht) as (st & Hst & Hrec).
  split; [eauto|]. intros t' Ht'.
  destruct (wf_owner w Hwf t' ws Ht') as (st' & Hst' & Hrec'). congruence.
Qed.

Lemma X4_one_deadline_per_socket_witness :
  (∃ st, objects active_world !! 0%nat = Some st ∧ inactivityTimer st = Some 0%nat)
  ∧ ∀ t' : TimerId, timers active_world !! t' = Some 0%nat → t' = 0%nat.
Proof.
  apply (X4_one_deadline_per_socket active_world 0%nat 0%nat).
  - exact active_world_reachable.
  - reflexivity.
Defined.

(** X5: when a suspended message handler resumes, it arms a new timeout
    for its socket, and the timeout that was recorded for the socket until
    then never fires in any later world. *)
Theorem X5_rearm_supersedes_deadline
    w i k st (t : TimerId) rejected sendThrows :
  reachable w →
  suspended w !! i = Some k →
  objects w !! k_ws k = Some st →
  inactivityTimer st = Some t →
  ∃ w1 out1,
    step w (InsertSettled i rejected sendThrows) = Some (w1, out1)
    ∧ timers w1 !! nextTimer w = Some (k_ws k)
    ∧ ∀ evs w2 out2 endTime sendThrows',
        run w1 evs = Some (w2, out2) →
        step w2 (TimerFires t endTime sendThrows') = None.
Proof.
  intros Hwf%reachable_wf Hk Hst Ht. simpl. unfold onInsertSettled. rewrite Hk.
  assert (wf (set_suspended (delete i (suspended w)) w)) as Hwf1.
  { apply wf_set_suspended; [done|]. intros k' Hk'.
    apply (wf_suspended w Hwf). by apply list_elem_of_delete_inv in Hk'. }
  destruct (finishMove_supersedes sendThrows k
              (set_suspended (delete i (suspended w)) w) st t Hwf1 Hst Ht)
    as [Hgone Hnew].
  pose proof (wf_fresh w Hwf _ _ _ Hst Ht) as Hlt.
  assert (t < nextTimer (fst (finishMove sendThrows k
                                (set_suspended (delete i (suspended w)) w))))%nat
    as Hlt1.
  { unfold finishMove. simpl. rewrite Hst. simpl.
    rewrite clearTimeout_nextTimer. simpl. lia. }
  destruct (finishMove _ _ _) as [w1 out1]. simpl in Hgone, Hnew, Hlt1.
  eexists _, _. split; [reflexivity|]. split; [done|].
  intros evs w2 out2 e sT' Hrun.
  by apply (cancelled_timeout_never_fires t evs w1 w2 out2).
Qed.

Lemma X5_rearm_supersedes_deadline_witness :
  ∃ w1 out1,
    step (fst (run_from initial_world second_move_pending))
         (InsertSettled 0%nat false never_throws) = Some (w1, out1)
    ∧ timers w1 !! nextTimer (fst (run_from initial_world second_move_pending))
      = Some (k_ws (mkContinuation 0%nat (mkPosition 1 1)))
    ∧ ∀ evs w2 out2 endTime sendThrows',
        run w1 evs = Some (w2, out2) →
        step w2 (TimerFires 0%nat endTime sendThrows') = None.
Proof.
  apply (X5_rearm_supersedes_deadline
           (fst (run_from initial_world second_move_pending)) 0%nat
           (mkContinuation 0%nat (mkPosition 1 1))
           (mkClientState "c0ffee" (Some (mkGameId 100 "c0ff")) (Some origin)
                          (mkPosition 1 1) (Some (mkPosition 1 1)) (Some 200)
                          (Some 0%nat) (Some 100))
           0%nat false never_throws).
  - exists second_move_pending. eexists. vm_compute. reflexivity.
  - reflexivity.
  - reflexivity.
  - reflexivity.
Defined.

(** ** Summaries come from timeouts only *)

Lemma step_summaries_length w ev w' out :
  step w ev = Some (w', out) →
  (length (summaries out) ≤ match ev with TimerFires _ _ _ => 1 | _ => 0 end)%nat.
Proof.
  destruct ev as [ws uuid sT|ws raw now ct iT sT|i r sT|t e sT|ws|ws|]; simpl.
  - destruct (objects w !! ws); [done|]. intros [= <- <-]. unfold trySend.
    simpl. by destruct (sT _).
  - intros [= Hstep]. pose proof (onMessage_summaries sT now ct iT ws raw w) as H.
    rewrite Hstep in H. simpl in H. by rewrite H.
  - by intros ->%onInsertSettled_summaries.
  - unfold onTimer. destruct (timers w !! t) as [ws|]; [|done].
    destruct (clients_get (clearTimeout (Some t) w) ws) as [st|] eqn:Hget.
    2: { rewrite endGame_guard by eauto. intros [= <- <-]. simpl. lia. }
    destruct (currentGameId st) as [gid|] eqn:Hgid.
    2: { rewrite endGame_guard by eauto. intros [= <- <-]. simpl. lia. }
    apply clients_get_Some in Hget as [Hin Hst].
    unfold endGame, clients_get.
    destruct (decide (ws ∈ clients (clearTimeout (Some t) w))); [|done].
    rewrite Hst, Hgid. unfold trySend.
    destruct (startPosition st), (lastPosition st); simpl;
      destruct (sT (GameOver _ _ _ _)), (sT (PositionUpdate _ _));
      intros [= <- <-]; simpl; lia.
  - unfold onClose. destruct (clients_get w ws); by intros [= <- <-].
  - unfold onError. destruct (clients_get w ws); by intros [= <- <-].
  - by intros [= <- <-].
Qed.

(** X6: in any run the server sends at most as many [gameOver] summaries
    as timeouts fired; connections, messages, settled writes, closes and
    errors never send one. *)
Theorem X6_summaries_only_from_timeouts evs :
  ∀ w w' out,
    run w evs = Some (w', out) →
    (length (summaries out) ≤ timeouts_in evs)%nat.
Proof.
  induction evs as [|ev evs IH]; intros w w' out Hrun; simpl in Hrun.
  - injection Hrun as <- <-. simpl. lia.
  - destruct (step w ev) as [[w1 out1]|] eqn:Hstep; [|done].
    destruct (run w1 evs) as [[w2 out2]|] eqn:Hrun'; [|done].
    injection Hrun as <- <-.
    pose proof (step_summaries_length w ev w1 out1 Hstep) as H1.
    pose proof (IH w1 w2 out2 Hrun') as H2.
    rewrite summaries_app, length_app. destruct ev; simpl; lia.
Qed.

Lemma X6_summaries_only_from_timeouts_witness :
  (length (summaries (snd (run_from initial_world late_rearm)))
   ≤ timeouts_in late_rearm)%nat.
Proof.
  apply (X6_summaries_only_from_timeouts late_rearm initial_world
           (fst (run_from initial_world late_rearm))).
  vm_compute. reflexivity.
Defined.

(** ** Failing sends *)

(** X7: whether calls to [ws.send] throw changes neither the world a turn
    of the event loop leaves behind, nor the messages passed to [ws.send],
    nor the documents passed to [insertOne]: every send sits in its own
    [try], so a failure only adds a log entry. *)
Theorem X7_send_failures_change_nothing w ev f :
  match step w ev, step w (with_sendThrows f ev) with
  | Some (w1, out1), Some (w2, out2) =>
      w1 = w2 ∧ sent out1 = sent out2 ∧ inserted out1 = inserted out2
  | None, None => True
  | _, _ => False
  end.
Proof.
  destruct ev as [ws uuid sT|ws raw now ct iT sT|i r sT|t e sT|ws|ws|]; simpl.
  - destruct (objects w !! ws); [done|]. unfold onConnection, trySend.
    by destruct (sT _), (f _).
  - unfold onMessage, open_session, finishMove, trySend.
    destruct (clients_get w ws) as [st|]; [|done].
    destruct (parse_command raw) as [err|command].
    { by destruct (sT _), (f _). }
    destruct (currentGameId st);
      (destruct (move command _) as [newPosition|];
       [ destruct (movementsCollection w); [|done];
         destruct iT; [|done];
         simpl; rewrite lookup_insert_eq; simpl; by destruct (sT _), (f _)
       | simpl; by destruct (sT _), (f _) ]).
  - unfold onInsertSettled, finishMove.
    destruct (suspended w !! i) as [k|]; [|done]. simpl.
    destruct (objects w !! k_ws k); by destruct r, (sT _), (f _).
  - unfold onTimer. destruct (timers w !! t) as [ws|]; [|done].
    unfold endGame, trySend.
    destruct (clients_get (clearTimeout (Some t) w) ws) as [st|]; [|done].
    destruct (currentGameId st); [|done].
    destruct (startPosition st), (lastPosition st); simpl;
      by destruct (sT (GameOver _ _ _ _)), (sT (PositionUpdate _ _)),
                  (f (GameOver _ _ _ _)), (f (PositionUpdate _ _)).
  - by destruct (onClose ws w).
  - by destruct (onError ws w).
  - done.
Qed.

(** ** Closed sockets *)

Lemma run_stays_unregistered (c : Conn) evs :
  ∀ w w' out,
    run w evs = Some (w', out) →
    is_Some (objects w !! c) → c ∉ clients w →
    is_Some (objects w' !! c) ∧ c ∉ clients w'.
Proof.
  induction evs as [|ev evs IH]; intros w w' out Hrun Hobj Hnin; simpl in Hrun.
  - by injection Hrun as <- <-.
  - destruct (step w ev) as [[w1 out1]|] eqn:Hstep; [|done].
    destruct (run w1 evs) as [[w2 out2]|] eqn:Hrun'; [|done].
    injection Hrun as <- <-.
    destruct (step_unregistered w ev w1 out1 c Hstep Hobj Hnin) as [Hobj1 Hnin1].
    by apply (IH w1 w2 out2).
Qed.

(** X8: once the [close] or [error] handler has removed the record of a
    socket, the socket stays without a record whatever happens next: any
    later message on it is dropped with one error log and no reply, and a
    later close changes nothing and only logs a warning. *)
Theorem X8_closed_socket_stays_closed w (ws : Conn) st ev :
  clients_get w ws = Some st →
  ev = Close ws ∨ ev = SocketErrors ws →
  ∃ w' out,
    step w ev = Some (w', out)
    ∧ ∀ evs w'' out'',
        run w' evs = Some (w'', out'') →
        clients_get w'' ws = None
        ∧ (∀ raw now currentTime insertOneThrows sendThrows,
             step w'' (Message ws raw now currentTime insertOneThrows sendThrows)
             = Some (w'', [Log Err UnregisteredMessage]))
        ∧ step w'' (Close ws) = Some (w'', [Log Warn UnregisteredDisconnected]).
Proof.
  intros Hget Hev. pose proof Hget as [Hin Hst]%clients_get_Some.
  assert (∃ out,
    step w ev = Some (clients_delete ws (clearTimeout (inactivityTimer st) w), out))
    as [out Hstep].
  { destruct Hev as [-> | ->]; simpl.
    - unfold onClose. rewrite Hget. by eexists.
    - unfold onError. rewrite Hget. by eexists. }
  eexists _, _. split; [exact Hstep|].
  intros evs w'' out'' Hrun.
  destruct (run_stays_unregistered ws evs _ _ _ Hrun) as [_ Hnin].
  { simpl. rewrite clearTimeout_objects. eauto. }
  { simpl. rewrite clearTimeout_clients. set_solver. }
  assert (clients_get w'' ws = None) as Hnone.
  { unfold clients_get. by destruct (decide (ws ∈ clients w'')). }
  split; [done|]. split.
  - intros raw now ct iT sT. simpl. unfold onMessage. by rewrite Hnone.
  - simpl. unfold onClose. by rewrite Hnone.
Qed.

Lemma X8_closed_socket_stays_closed_witness :
  ∃ w' out,
    step active_world (SocketErrors 0%nat) = Some (w', out)
    ∧ ∀ evs w'' out'',
        run w' evs = Some (w'', out'') →
        clients_get w'' 0%nat = None
        ∧ (∀ raw now currentTime insertOneThrows sendThrows,
             step w'' (Message 0%nat raw now currentTime insertOneThrows sendThrows)
             = Some (w'', [Log Err UnregisteredMessage]))
        ∧ step w'' (Close 0%nat) = Some (w'', [Log Warn UnregisteredDisconnected]).
Proof.
  apply (X8_closed_socket_stays_closed active_world 0%nat playing
           (SocketErrors 0%nat)).
  - reflexivity.
  - right. reflexivity.
Defined.

(** ** Before the database is connected *)

Lemma finishMove_collection sendThrows k w :
  movementsCollection (fst (finishMove sendThrows k w)) = movementsCollection w.
Proof.
  unfold finishMove. destruct (objects w !! k_ws k); [|done]. simpl.
  by rewrite clearTimeout_collection.
Qed.

Lemma endGame_collection sendThrows endTime (ws : Conn) w :
  movementsCollection (fst (endGame sendThrows endTime ws w)) = movementsCollection w.
Proof.
  unfold endGame. destruct (clients_get w ws) as [st|]; [|done].
  destruct (currentGameId st); [|done].
  destruct (startPosition st), (lastPosition st); simpl;
    by rewrite clearTimeout_collection.
Qed.

Lemma onMessage_collection sendThrows now currentTime insertOneThrows (ws : Conn) raw w :
  movementsCollection
    (fst (onMessage sendThrows now currentTime insertOneThrows ws raw w))
  = movementsCollection w.
Proof.
  unfold onMessage. destruct (clients_get w ws) as [st|]; [|done].
  destruct (parse_command raw) as [e|command]; [done|].
  destruct (open_session now currentTime st) as [opened logOpen].
  destruct (move command (currentPosition opened)) as [newPosition|]; [|done].
  destruct (movementsCollection w) eqn:Hcoll; cbn [negb fst]; [|done].
  destruct insertOneThrows; [|done].
  pose proof (finishMove_collection sendThrows (mkContinuation ws newPosition)
    (set_object ws (record_move now newPosition opened) w)) as H.
  destruct (finishMove _ _ _). simpl in *. by rewrite H.
Qed.

(** Once set, [movementsCollection] stays set. *)
Lemma step_collection w ev w' out :
  step w ev = Some (w', out) →
  movementsCollection w = true → movementsCollection w' = true.
Proof.
  intros Hstep Hcoll.
  destruct ev as [ws uuid sT|ws raw now ct iT sT|i r sT|t e sT|ws|ws|];
    simpl in Hstep.
  - destruct (objects w !! ws); [done|]. by injection Hstep as <- <-.
  - injection Hstep as Hstep.
    pose proof (onMessage_collection sT now ct iT ws raw w) as H.
    rewrite Hstep in H. simpl in H. congruence.
  - unfold onInsertSettled in Hstep. destruct (suspended w !! i) as [k|]; [|done].
    pose proof (finishMove_collection sT k
                  (set_suspended (delete i (suspended w)) w)) as H.
    destruct (finishMove _ _ _). injection Hstep as <- <-. simpl in H. congruence.
  - unfold onTimer in Hstep. destruct (timers w !! t) as [ws|]; [|done].
    pose proof (endGame_collection sT e ws (clearTimeout (Some t) w)) as H.
    destruct (endGame _ _ _ _). injection Hstep as <- <-. simpl in H. congruence.
  - unfold onClose in Hstep. destruct (clients_get w ws);
      injection Hstep as <- <-; [|done]. simpl. by rewrite clearTimeout_collection.
  - unfold onError in Hstep. destruct (clients_get w ws);
      injection Hstep as <- <-; [|done]. simpl. by rewrite clearTimeout_collection.
  - by injection Hstep as <- <-.
Qed.

Lemma run_collection evs :
  ∀ w w' out, run w evs = Some (w', out) →
              movementsCollection w = true → movementsCollection w' = true.
Proof.
  induction evs as [|ev evs IH]; intros w w' out Hrun Hcoll; simpl in Hrun.
  - by injection Hrun as <- <-.
  - destruct (step w ev) as [[w1 out1]|] eqn:Hstep; [|done].
    destruct (run w1 evs) as [[w2 out2]|] eqn:Hrun'; [|done].
    injection Hrun as <- <-. eapply IH; [done|]. by eapply step_collection.
Qed.

Lemma clearTimeout_no_timers o w : timers w = ∅ → timers (clearTimeout o w) = ∅.
Proof. intros H. destruct o; simpl; [|done]. rewrite H. apply delete_empty. Qed.

(** While the collection is not set and nothing is pending, a turn serves
    no move and leaves nothing pending. *)
Lemma step_before_db w ev w' out :
  step w ev = Some (w', out) →
  movementsCollection w = false → timers w = ∅ → suspended w = [] →
  timers w' = ∅ ∧ suspended w' = [] ∧ existsb serves out = false.
Proof.
  intros Hstep Hcoll Htm Hsus.
  destruct ev as [ws uuid sT|ws raw now ct iT sT|i r sT|t e sT|ws|ws|];
    simpl in Hstep.
  - destruct (objects w !! ws); [done|]. injection Hstep as <- <-.
    unfold trySend. simpl. by destruct (sT _).
  - injection Hstep as Hstep. revert Hstep.
    unfold onMessage, open_session, trySend.
    destruct (clients_get w ws) as [st|]; [|by intros [= <- <-]].
    destruct (parse_command raw) as [err|command].
    { intros [= <- <-]. simpl. by destruct (sT _). }
    rewrite Hcoll.
    destruct (currentGameId st);
      (destruct (move command _) as [newPosition|];
       intros [= <- <-]; simpl; [done|by destruct (sT _)]).
  - unfold onInsertSettled in Hstep. by rewrite Hsus in Hstep.
  - unfold onTimer in Hstep. by rewrite Htm, lookup_empty in Hstep.
  - unfold onClose in Hstep. destruct (clients_get w ws);
      injection Hstep as <- <-; [|done].
    simpl. rewrite clearTimeout_suspended.
    split; [|done]. by apply (clearTimeout_no_timers _ w).
  - unfold onError in Hstep. destruct (clients_get w ws);
      injection Hstep as <- <-; [|done].
    simpl. rewrite clearTimeout_suspended.
    split; [|done]. by apply (clearTimeout_no_timers _ w).
  - by injection Hstep as <- <-.
Qed.

Lemma run_before_db evs :
  ∀ w w' out,
    run w evs = Some (w', out) →
    movementsCollection w' = false → timers w = ∅ → suspended w = [] →
    timers w' = ∅ ∧ suspended w' = [] ∧ existsb serves out = false.
Proof.
  induction evs as [|ev evs IH]; intros w w' out Hrun Hcoll Htm Hsus; simpl in Hrun.
  - by injection Hrun as <- <-.
  - destruct (step w ev) as [[w1 out1]|] eqn:Hstep; [|done].
    destruct (run w1 evs) as [[w2 out2]|] eqn:Hrun'; [|done].
    injection Hrun as <- <-.
    assert (movementsCollection w1 = false) as Hcoll1.
    { destruct (movementsCollection w1) eqn:H1; [|done].
      pose proof (run_collection evs w1 w2 out2 Hrun' H1). congruence. }
    assert (movementsCollection w = false) as Hcoll0.
    { destruct (movementsCollection w) eqn:H0; [|done].
      pose proof (step_collection w ev w1 out1 Hstep H0). congruence. }
    destruct (step_before_db w ev w1 out1 Hstep Hcoll0 Htm Hsus) as (Ht1 & Hs1 & Ho1).
    destruct (IH w1 w2 out2 Hrun' Hcoll Ht1 Hs1) as (Ht2 & Hs2 & Ho2).
    split; [done|]. split; [done|]. by rewrite existsb_app, Ho1, Ho2.
Qed.

Lemma serves_nothing out :
  existsb serves out = false →
  inserted out = []
  ∧ ∀ (c : Conn) m, (c, m) ∈ sent out →
      (∃ mx my, m = InitialState mx my) ∨ (∃ e, m = ErrorMsg e).
Proof.
  induction out as [|e out IH]; simpl.
  - intros _. split; [done|]. by intros c m ?%elem_of_nil.
  - intros [He Hout]%orb_false_iff. destruct (IH Hout) as [Hins Hsent].
    destruct e as [ws m|lvl site|doc]; simpl in *; [|done|done].
    split; [done|]. intros c m' [[= -> ->]|Hin]%elem_of_cons; [|eauto].
    destruct m; try done; eauto.
Qed.

(** X9: as long as [connectDB] has not set the collection, the server
    never sends a [positionUpdate] or a [gameOver], never calls
    [insertOne], and never has a timeout pending: clients only get their
    [initialState] and error replies. *)
Theorem X9_nothing_served_before_db evs w out :
  run initial_world evs = Some (w, out) →
  movementsCollection w = false →
  timers w = ∅
  ∧ inserted out = []
  ∧ ∀ (c : Conn) m, (c, m) ∈ sent out →
      (∃ mx my, m = InitialState mx my) ∨ (∃ e, m = ErrorMsg e).
Proof.
  intros Hrun Hcoll.
  destruct (run_before_db evs _ _ _ Hrun Hcoll) as (Htm & _ & Hout); [done..|].
  split; [done|]. by apply serves_nothing.
Qed.

Lemma X9_nothing_served_before_db_witness :
  timers (fst (run_from initial_world before_db)) = ∅
  ∧ inserted (snd (run_from initial_world before_db)) = []
  ∧ ∀ (c : Conn) m, (c, m) ∈ sent (snd (run_from initial_world before_db)) →
      (∃ mx my, m = InitialState mx my) ∨ (∃ e, m = ErrorMsg e).
Proof.
  apply (X9_nothing_served_before_db before_db).
  - vm_compute. reflexivity.
  - reflexivity.
Defined.

(** ** The client's keys *)

(** X10: whenever the client's [keypress] handler sends something, the
    payload is [{command: c}] for one of the four commands, the server's
    parser returns that command, and the server's [switch] accepts it and
    applies its unit step: a key press never produces an error reply. *)
Theorem X10_client_keys_are_accepted name payload :
  onKeypress name = SendPayload payload →
  ∃ c, payload = JObject [("command"%string, JString (token c))]
       ∧ parse_command (Some payload) = inr (token c)
       ∧ ∀ p, move (token c) p = Some (translate p (unit_step c)).
Proof.
  unfold onKeypress, key_command. destruct name as [n|]; [|done].
  destruct (String.eqb n "q"); [done|].
  assert (∀ c, ∀ p, move (token c) p = Some (translate p (unit_step c))) as Hmv.
  { intros c p. rewrite move_unit_step. by destruct c. }
  destruct (String.eqb n "up"); [intros [= <-]; by exists Up|].
  destruct (String.eqb n "down"); [intros [= <-]; by exists Down|].
  destruct (String.eqb n "left"); [intros [= <-]; by exists Left|].
  destruct (String.eqb n "right"); [intros [= <-]; by exists Right|].
  done.
Qed.

Lemma X10_client_keys_are_accepted_witness :
  ∃ c, JObject [("command"%string, JString "left")]
       = JObject [("command"%string, JString (token c))]
       ∧ parse_command (Some (JObject [("command"%string, JString "left")]))
         = inr (token c)
       ∧ ∀ p, move (token c) p = Some (translate p (unit_step c)).
Proof.
  apply (X10_client_keys_are_accepted (Some "left")). reflexivity.
Defined.

(** ** The reported distance *)

(** X11: the quantity under the square root of [endGame] is symmetric in
    the two positions, never negative, and zero exactly when the two
    positions are the same. *)
Theorem X11_squared_distance_metric a b :
  squared_distance a b = squared_distance b a
  ∧ 0 ≤ squared_distance a b
  ∧ (squared_distance a b = 0 ↔ a = b).
Proof.
  unfold squared_distance. destruct a as [ax ay], b as [bx by_]. simpl.
  split; [nia|]. split; [nia|]. split.
  - intros H. assert (bx - ax = 0 ∧ by_ - ay = 0) as [Hx Hy] by nia.
    f_equal; lia.
  - intros [= -> ->]. nia.
Qed.

(** ** The life of a session *)

Lemma set_own_timer st : set_inactivityTimer (inactivityTimer st) st = st.
Proof. by destruct st. Qed.

(** What one turn does to the record of a socket: it changes at most the
    recorded timeout, unless the turn is a message with a string command
    for that socket, or a timeout that ends its game. *)
Lemma step_record_cases w ev w' out (c : Conn) st :
  step w ev = Some (w', out) →
  objects w !! c = Some st →
  ∃ st', objects w' !! c = Some st'
    ∧ ((∃ t, st' = set_inactivityTimer t st)
       ∨ (∃ raw now currentTime insertOneThrows sendThrows command t,
            ev = Message c raw now currentTime insertOneThrows sendThrows
            ∧ c ∈ clients w
            ∧ parse_command raw = inr command
            ∧ st' = set_inactivityTimer t
                      match move command (currentPosition st) with
                      | Some p => record_move now p (fst (open_session now currentTime st))
                      | None => fst (open_session now currentTime st)
                      end)
       ∨ (∃ (t : TimerId) endTime sendThrows,
            ev = TimerFires t endTime sendThrows
            ∧ timers w !! t = Some c
            ∧ c ∈ clients w
            ∧ is_Some (currentGameId st)
            ∧ st' = cleared st)).
Proof.
  intros Hstep Hst.
  assert (∀ w1, objects w1 !! c = objects w !! c →
    ∃ st', objects w1 !! c = Some st' ∧ ((∃ t, st' = set_inactivityTimer t st)
      ∨ (∃ raw now currentTime insertOneThrows sendThrows command t,
            ev = Message c raw now currentTime insertOneThrows sendThrows
            ∧ c ∈ clients w
            ∧ parse_command raw = inr command
            ∧ st' = set_inactivityTimer t
                      match move command (currentPosition st) with
                      | Some p => record_move now p (fst (open_session now currentTime st))
                      | None => fst (open_session now currentTime st)
                      end)
       ∨ (∃ (t : TimerId) endTime sendThrows,
            ev = TimerFires t endTime sendThrows
            ∧ timers w !! t = Some c
            ∧ c ∈ clients w
            ∧ is_Some (currentGameId st)
            ∧ st' = cleared st))) as Hsame.
  { intros w1 H1. exists st. rewrite H1. split; [done|]. left.
    exists (inactivityTimer st). by rewrite set_own_timer. }
  destruct ev as [ws uuid sT|ws raw now ct iT sT|i r sT|t e sT|ws|ws|];
    simpl in Hstep.
  - destruct (objects w !! ws) eqn:Hnew; [done|]. injection Hstep as <- <-.
    apply Hsame. simpl. rewrite lookup_insert_ne; [done|congruence].
  - injection Hstep as Hstep.
    destruct (decide (c = ws)) as [->|Hne].
    2: { apply Hsame. pose proof (onMessage_object_other sT now ct iT ws c raw w Hne) as H.
         by rewrite Hstep in H. }
    destruct (clients_get w ws) as [st0|] eqn:Hget.
    2: { apply Hsame. pose proof (onMessage_dropped sT now ct iT ws raw w) as Hd.
         rewrite Hstep in Hd. simpl in Hd. by rewrite Hd by eauto. }
    destruct (parse_command raw) as [err|command] eqn:Hparse.
    { apply Hsame. pose proof (onMessage_dropped sT now ct iT ws raw w) as Hd.
      rewrite Hstep in Hd. simpl in Hd. by rewrite Hd by eauto. }
    pose proof Hget as [Hin Hst0]%clients_get_Some.
    assert (st0 = st) as -> by congruence.
    destruct (onMessage_object sT now ct iT ws raw command w st Hget Hparse)
      as (tm & Hobj).
    rewrite Hstep in Hobj. simpl in Hobj.
    eexists. split; [exact Hobj|]. right. left.
    by eexists raw, now, ct, iT, sT, command, tm.
  - unfold onInsertSettled in Hstep.
    destruct (suspended w !! i) as [k|]; [|done].
    pose proof (finishMove_object sT k (set_suspended (delete i (suspended w)) w)) as Ho.
    pose proof (finishMove_object_other sT k
                  (set_suspended (delete i (suspended w)) w) c) as Hoo.
    destruct (finishMove _ _ _) as [w1 out1]. injection Hstep as <- <-.
    simpl in Ho, Hoo. destruct (decide (c = k_ws k)) as [->|Hne].
    + rewrite Ho, Hst. simpl. eexists. split; [done|]. left. by eexists.
    + apply Hsame. by apply Hoo.
  - unfold onTimer in Hstep. destruct (timers w !! t) as [ws|] eqn:Ht; [|done].
    destruct (clients_get (clearTimeout (Some t) w) ws) as [st0|] eqn:Hget.
    2: { rewrite endGame_guard in Hstep by eauto. injection Hstep as <- <-.
         by apply Hsame. }
    destruct (currentGameId st0) as [gid|] eqn:Hgid.
    2: { rewrite endGame_guard in Hstep by eauto. injection Hstep as <- <-.
         by apply Hsame. }
    destruct (endGame_active sT e ws _ st0 gid Hget Hgid) as (logs & _ & Heq).
    rewrite Heq in Hstep. injection Hstep as <- <-.
    rewrite clients_get_clearTimeout in Hget.
    apply clients_get_Some in Hget as [Hin Hst0].
    destruct (decide (ws = c)) as [->|Hne].
    + assert (st0 = st) as -> by congruence.
      exists (cleared st). split.
      { simpl. by rewrite lookup_insert_eq. }
      right. right. eexists t, e, sT. rewrite Hgid. eauto 10.
    + apply Hsame. simpl. rewrite clearTimeout_objects. simpl.
      by rewrite lookup_insert_ne.
  - injection Hstep as Hstep. destruct (onClose_objects ws w) as [Ho _].
    rewrite Hstep in Ho. simpl in Ho. apply Hsame. by rewrite Ho.
  - injection Hstep as Hstep. destruct (onError_objects ws w) as [Ho _].
    rewrite Hstep in Ho. simpl in Ho. apply Hsame. by rewrite Ho.
  - injection Hstep as <- <-. by apply Hsame.
Qed.

(** C4: in one turn of the event loop, for the record of any socket:
    (a) when the socket is registered and receives an accepted command,
    its position becomes the outcome of the move applied to the position
    it had, and if no game was open the session opens with
    [startPosition] equal to that previous position, while an open
    session keeps its [startPosition];
    (b) when a timeout armed for the socket fires while it is registered
    with an open game, its position becomes (0,0);
    (c) in every other case the position stays: it changes only by (a) or
    by (b). *)
Theorem C4_only_timeout_resets_position w ev w' out (ws : Conn) st :
  step w ev = Some (w', out) →
  objects w !! ws = Some st →
  ∃ st', objects w' !! ws = Some st'
    ∧ (∀ raw now currentTime insertOneThrows sendThrows command p,
         ev = Message ws raw now currentTime insertOneThrows sendThrows →
         ws ∈ clients w →
         parse_command raw = inr command →
         move command (currentPosition st) = Some p →
         currentPosition st' = p
         ∧ (currentGameId st = None → startPosition st' = Some (currentPosition st))
         ∧ (is_Some (currentGameId st) → startPosition st' = startPosition st))
    ∧ (∀ (t : TimerId) endTime sendThrows,
         ev = TimerFires t endTime sendThrows →
         timers w !! t = Some ws →
         ws ∈ clients w →
         is_Some (currentGameId st) →
         currentPosition st' = origin)
    ∧ (currentPosition st' = currentPosition st
       ∨ (∃ raw now currentTime insertOneThrows sendThrows command,
            ev = Message ws raw now currentTime insertOneThrows sendThrows
            ∧ ws ∈ clients w
            ∧ parse_command raw = inr command
            ∧ move command (currentPosition st) = Some (currentPosition st'))
       ∨ (∃ (t : TimerId) endTime sendThrows,
            ev = TimerFires t endTime sendThrows
            ∧ timers w !! t = Some ws
            ∧ ws ∈ clients w
            ∧ is_Some (currentGameId st)
            ∧ currentPosition st' = origin)).
Proof.
  intros Hstep Hst.
  destruct (step_record_cases w ev w' out ws st Hstep Hst) as (st' & Hst' & Hcases).
  exists st'. split; [done|]. split; [|split].
  - intros raw now ct iT sT command p -> Hin Hparse Hmove.
    assert (clients_get w ws = Some st) as Hget by by apply clients_get_Some.
    destruct (onMessage_object sT now ct iT ws raw command w st Hget Hparse)
      as (tm & Hobj).
    simpl in Hstep. injection Hstep as Hstep. rewrite Hstep in Hobj.
    simpl in Hobj. rewrite Hmove in Hobj.
    assert (st' = set_inactivityTimer tm
                    (record_move now p (fst (open_session now ct st)))) as ->
      by congruence.
    split; [done|]. unfold open_session. split.
    + by intros ->.
    + by intros [gid ->].
  - intros t e sT -> Ht Hin [gid Hgid].
    simpl in Hstep. unfold onTimer in Hstep. rewrite Ht in Hstep.
    destruct (endGame_active sT e ws (clearTimeout (Some t) w) st gid)
      as (logs & _ & Heq).
    { rewrite clients_get_clearTimeout. by apply clients_get_Some. }
    { done. }
    rewrite Heq in Hstep. injection Hstep as <- <-.
    simpl in Hst'. rewrite lookup_insert_eq in Hst'. by injection Hst' as <-.
  - destruct Hcases as [[t ->]|[(raw & now & ct & iT & sT & command & t & -> & Hin & Hparse & ->)
                                |(t & e & sT & -> & Ht & Hin & Hact & ->)]].
    + by left.
    + destruct (move command (currentPosition st)) as [p|] eqn:Hmove.
      * right. left. by eexists raw, now, ct, iT, sT, command.
      * left. simpl. apply open_session_position.
    + right. right. by eexists t, e, sT.
Qed.

(** Both ways a position is replaced, on the sample worlds: the first move
    of an idle client opens its session at the position it had, and the
    timeout of a client that has moved puts it back at (0,0). *)
Lemma C4_only_timeout_resets_position_witness :
  (∃ st',
     objects (fst (run_from idle_world
                     [Message 0%nat (say "right") 100 100 false never_throws]))
       !! 0%nat = Some st'
     ∧ currentPosition st' = mkPosition 1 0
     ∧ startPosition st' = Some (currentPosition (new_client "c0ffee")))
  ∧ (∃ st',
       objects (fst (run_from active_world [TimerFires 0%nat 10100 never_throws]))
         !! 0%nat = Some st'
       ∧ currentPosition playing = mkPosition 1 0
       ∧ currentPosition st' = origin).
Proof.
  split.
  - destruct (C4_only_timeout_resets_position idle_world
                (Message 0%nat (say "right") 100 100 false never_throws)
                (fst (run_from idle_world
                        [Message 0%nat (say "right") 100 100 false never_throws]))
                (snd (run_from idle_world
                        [Message 0%nat (say "right") 100 100 false never_throws]))
                0%nat (new_client "c0ffee"))
      as (st' & Hst' & Hmove & _ & _).
    + vm_compute. reflexivity.
    + reflexivity.
    + exists st'. split; [exact Hst'|].
      destruct (Hmove (say "right") 100 100 false never_throws "right"
                      (mkPosition 1 0)) as (Hp & Hs & _).
      * reflexivity.
      * vm_compute. reflexivity.
      * reflexivity.
      * reflexivity.
      * split; [exact Hp|]. apply Hs. reflexivity.
  - destruct (C4_only_timeout_resets_position active_world
                (TimerFires 0%nat 10100 never_throws)
                (fst (run_from active_world [TimerFires 0%nat 10100 never_throws]))
                (snd (run_from active_world [TimerFires 0%nat 10100 never_throws]))
                0%nat playing)
      as (st' & Hst' & _ & Hreset & _).
    + vm_compute. reflexivity.
    + reflexivity.
    + exists st'. split; [exact Hst'|]. split; [reflexivity|].
      apply (Hreset 0%nat 10100 never_throws).
      * reflexivity.
      * reflexivity.
      * vm_compute. reflexivity.
      * simpl. eexists. reflexivity.
Defined.

(** X12: through every turn of the event loop, whatever the event, a
    record keeps its [clientId], with or without a game; and once a game
    is open its [currentGameId], [startPosition] and [gameStartTime] stay
    as they are until a timeout armed for that socket fires while it is
    registered; that turn leaves the record cleared. *)
Theorem X12_session_lives_until_timeout w ev w' out (ws : Conn) st :
  step w ev = Some (w', out) →
  objects w !! ws = Some st →
  ∃ st', objects w' !! ws = Some st'
    ∧ clientId st' = clientId st
    ∧ ∀ gid, currentGameId st = Some gid →
        currentGameId st' = Some gid
        ∧ startPosition st' = startPosition st
        ∧ gameStartTime st' = gameStartTime st
        ∨ st' = cleared st
          ∧ ∃ (t : TimerId) endTime sendThrows,
              ev = TimerFires t endTime sendThrows
              ∧ timers w !! t = Some ws ∧ ws ∈ clients w.
Proof.
  intros Hstep Hst.
  destruct (step_record_cases w ev w' out ws st Hstep Hst)
    as (st' & Hst' & [[t ->]|[(raw & now & ct & iT & sT & command & t & _ & _ & _ & ->)
                             |(t & e & sT & -> & Ht & Hin & _ & ->)]]).
  - exists (set_inactivityTimer t st). split; [done|]. split; [done|].
    intros gid Hgid. by left.
  - eexists. split; [exact Hst'|]. split.
    + unfold open_session.
      by destruct (currentGameId st), (move command (currentPosition st)).
    + intros gid Hgid. left. unfold open_session. rewrite Hgid.
      by destruct (move command (currentPosition st)).
  - exists (cleared st). split; [done|]. split; [done|]. intros gid Hgid. right.
    split; [done|]. by eexists t, e, sT.
Qed.

(** An unknown command inside the open session of [active_world]: the
    record keeps its id and its session. *)
Lemma X12_session_lives_until_timeout_witness :
  ∃ st', objects (fst (run_from active_world
                         [Message 0%nat (say "jump") 300 300 false never_throws]))
           !! 0%nat = Some st'
    ∧ clientId st' = clientId playing
    ∧ ∀ gid, currentGameId playing = Some gid →
        currentGameId st' = Some gid
        ∧ startPosition st' = startPosition playing
        ∧ gameStartTime st' = gameStartTime playing
        ∨ st' = cleared playing
          ∧ ∃ (t : TimerId) endTime sendThrows,
              Message 0%nat (say "jump") 300 300 false never_throws
              = TimerFires t endTime sendThrows
              ∧ timers active_world !! t = Some 0%nat ∧ 0%nat ∈ clients active_world.
Proof.
  apply (X12_session_lives_until_timeout active_world
           (Message 0%nat (say "jump") 300 300 false never_throws)
           (fst (run_from active_world
                   [Message 0%nat (say "jump") 300 300 false never_throws]))
           (snd (run_from active_world
                   [Message 0%nat (say "jump") 300 300 false never_throws]))
           0%nat playing).
  - vm_compute. reflexivity.
  - reflexivity.
Defined.

(** ** Persisted moves *)

(** X13: while the collection is set, the handler of a message on a
    registered socket calls [insertOne] exactly once if the command is one
    of the four and not at all otherwise; the document carries the
    position after the move, the command, the client id, the handler's
    time stamp, and the id of the open game, or of the game the message
    has just opened, never [null]. *)
Theorem X13_one_document_per_accepted_move
    w (ws : Conn) st raw now currentTime insertOneThrows sendThrows :
  clients_get w ws = Some st →
  movementsCollection w = true →
  ∃ w' out,
    step w (Message ws raw now currentTime insertOneThrows sendThrows) = Some (w', out)
    ∧ inserted out
      = match parse_command raw with
        | inr command =>
            match move command (currentPosition st) with
            | Some p =>
                [ mkMovementData
                    (Some (default (mkGameId now (substring 0 4 (clientId st)))
                                   (currentGameId st)))
                    (clientId st) command (x p) (y p) currentTime ]
            | None => []
            end
        | inl _ => []
        end.
Proof.
  intros Hget Hcoll. simpl. unfold onMessage, open_session, finishMove, trySend.
  rewrite Hget, Hcoll.
  destruct (parse_command raw) as [err|command].
  { eexists _, _. split; [reflexivity|]. by destruct (sendThrows _). }
  destruct (currentGameId st) eqn:Hgid;
    (destruct (move command _) as [newPosition|];
     [ destruct insertOneThrows;
       [ simpl; rewrite lookup_insert_eq; simpl; rewrite ?Hgid;
         eexists _, _; (split; [reflexivity|]); simpl; by destruct (sendThrows _)
       | simpl; rewrite ?Hgid; eexists _, _; by split ]
     | eexists _, _; (split; [reflexivity|]); simpl; by destruct (sendThrows _) ]).
Qed.

Lemma X13_one_document_per_accepted_move_witness :
  ∃ w' out,
    step idle_world (Message 0%nat (say "down") 100 101 false never_throws)
    = Some (w', out)
    ∧ inserted out
      = match parse_command (say "down") with
        | inr command =>
            match move command (currentPosition (new_client "c0ffee")) with
            | Some p =>
                [ mkMovementData
                    (Some (default (mkGameId 100
                                      (substring 0 4 (clientId (new_client "c0ffee"))))
                                   (currentGameId (new_client "c0ffee"))))
                    (clientId (new_client "c0ffee")) command (x p) (y p) 101 ]
            | None => []
            end
        | inl _ => []
        end.
Proof.
  apply (X13_one_document_per_accepted_move idle_world 0%nat (new_client "c0ffee")
           (say "down") 100 101 false never_throws); reflexivity.
Defined.

(** ** Client and server together *)

(** [delivered] picks out of a turn's effects exactly the calls to
    [ws.send] that did not throw. *)
Lemma step_delivered w ev w' out :
  step w ev = Some (w', out) →
  delivered out
  = List.filter (λ cm, negb (event_sendThrows ev (snd cm))) (sent out).
Proof.
  destruct ev as [ws uuid sT|ws raw now ct iT sT|i r sT|t e sT|ws|ws|]; simpl.
  - destruct (objects w !! ws); [done|]. intros [= <- <-]. unfold trySend.
    simpl. destruct (sT _) eqn:E; simpl; by rewrite ?E.
  - intros [= Hstep].
    replace out with (snd (onMessage sT now ct iT ws raw w)) by (by rewrite Hstep).
    clear Hstep. unfold onMessage, open_session, finishMove, trySend.
    destruct (clients_get w ws) as [st|]; [|done].
    destruct (parse_command raw) as [err|command].
    { simpl. destruct (sT _) eqn:E; simpl; by rewrite ?E. }
    destruct (currentGameId st);
      (destruct (move command _) as [newPosition|];
       [ destruct (movementsCollection w); [|done];
         destruct iT; [|done];
         simpl; rewrite lookup_insert_eq; simpl;
         destruct (sT _) eqn:E; simpl; by rewrite ?E
       | simpl; destruct (sT _) eqn:E; simpl; by rewrite ?E ]).
  - unfold onInsertSettled, finishMove.
    destruct (suspended w !! i) as [k|]; [|done]. simpl.
    destruct (objects w !! k_ws k); intros [= <- <-];
      destruct r, (sT _) eqn:E; simpl; by rewrite ?E.
  - unfold onTimer. destruct (timers w !! t) as [ws|]; [|done].
    unfold endGame, trySend.
    destruct (clients_get (clearTimeout (Some t) w) ws) as [st|];
      [|by intros [= <- <-]].
    destruct (currentGameId st); [|by intros [= <- <-]].
    destruct (startPosition st), (lastPosition st); simpl;
      destruct (sT (GameOver _ _ _ _)) eqn:E1, (sT (PositionUpdate _ _)) eqn:E2;
      intros [= <- <-]; simpl; by rewrite ?E1, ?E2.
  - unfold onClose. by destruct (clients_get w ws); intros [= <- <-].
  - unfold onError. by destruct (clients_get w ws); intros [= <- <-].
  - by intros [= <- <-].
Qed.

(** X14: when the write of an accepted move settles before anything else
    happens on the server, the server's record holds the position after
    the move; if the call to [ws.send] for the reply does not throw, the
    client ends up showing that position, whatever it showed before; if
    the call throws, nothing reaches the client and it keeps showing what
    it showed. *)
Theorem X14_client_shows_recorded_position
    w (ws : Conn) st raw command p now currentTime sendThrows rejected sendThrows' :
  clients_get w ws = Some st →
  movementsCollection w = true →
  parse_command raw = inr command →
  move command (currentPosition st) = Some p →
  ∃ w' out,
    run w [ Message ws raw now currentTime false sendThrows;
            InsertSettled (length (suspended w)) rejected sendThrows' ]
    = Some (w', out)
    ∧ position_of w' ws = Some p
    ∧ ∀ q, client_replay ws out q
           = if sendThrows' (PositionUpdate (x p) (y p)) then q else p.
Proof.
  intros Hget Hcoll Hparse Hmove.
  simpl. unfold onMessage, open_session. rewrite Hget, Hparse.
  destruct (currentGameId st) eqn:Hgid;
    cbn [fst snd currentPosition]; rewrite Hmove, Hcoll; cbn [negb];
    unfold onInsertSettled; cbn [suspended set_suspended set_object];
    rewrite (list_lookup_middle (suspended w) [] _ (length (suspended w)) eq_refl);
    unfold finishMove; cbn [k_ws k_newPosition objects set_suspended set_object];
    rewrite lookup_insert_eq;
    (eexists _, _; split; [reflexivity|]; split;
     [ unfold position_of; simpl; by rewrite lookup_insert_eq
     | intros q; unfold client_replay;
       destruct rejected, (sendThrows' _); simpl;
       destruct (decide (ws = ws)); try done; by destruct p ]).
Qed.

Lemma X14_client_shows_recorded_position_witness :
  ∃ w' out,
    run active_world
        [ Message 0%nat (say "up") 200 200 false never_throws;
          InsertSettled (length (suspended active_world)) false never_throws ]
    = Some (w', out)
    ∧ position_of w' 0%nat = Some (mkPosition 1 1)
    ∧ ∀ q, client_replay 0%nat out q
           = if never_throws (PositionUpdate (x (mkPosition 1 1)) (y (mkPosition 1 1)))
             then q else mkPosition 1 1.
Proof.
  apply (X14_client_shows_recorded_position active_world 0%nat playing
           (say "up") "up" (mkPosition 1 1) 200 200 never_throws false never_throws);
    reflexivity.
Defined.

(** ** Sockets do not interfere *)

Lemma own_set_object w (ws : Conn) st st' :
  timers_own w → objects w !! ws = Some st →
  (inactivityTimer st' = inactivityTimer st ∨ inactivityTimer st' = None) →
  timers_own (set_object ws st' w).
Proof.
  intros Hown Hst Ht c c' s t. simpl.
  destruct (decide (ws = c)) as [->|Hne].
  - rewrite lookup_insert_eq. intros [= <-] Hrec Hp.
    destruct Ht as [Ht|Ht]; [|congruence]. rewrite Ht in Hrec. eauto.
  - rewrite lookup_insert_ne by done. eauto.
Qed.

Lemma own_clearTimeout w o : timers_own w → timers_own (clearTimeout o w).
Proof.
  intros Hown c c' s t. rewrite clearTimeout_objects.
  intros Hs Hrec [Hp _]%clearTimeout_timers. eauto.
Qed.

Lemma own_rearm w (ws : Conn) st :
  wf w → timers_own w → objects w !! ws = Some st →
  timers_own
    (set_object ws
       (set_inactivityTimer
          (Some (snd (setTimeout ws (clearTimeout (inactivityTimer st) w)))) st)
       (fst (setTimeout ws (clearTimeout (inactivityTimer st) w)))).
Proof.
  intros Hwf Hown Hst c c' s t. simpl.
  rewrite clearTimeout_objects, clearTimeout_nextTimer.
  destruct (decide (ws = c)) as [->|Hne].
  - rewrite lookup_insert_eq. intros [= <-]. simpl. intros [= <-].
    rewrite lookup_insert_eq. congruence.
  - rewrite lookup_insert_ne by done. intros Hs Hrec.
    pose proof (wf_fresh w Hwf _ _ _ Hs Hrec) as Hlt.
    rewrite lookup_insert_ne by lia.
    intros [Hp _]%clearTimeout_timers. eauto.
Qed.

Lemma own_finishMove sendThrows k w :
  wf w → timers_own w → timers_own (fst (finishMove sendThrows k w)).
Proof.
  intros Hwf Hown. unfold finishMove.
  destruct (objects w !! k_ws k) as [st|] eqn:Hst; [|done].
  exact (own_rearm w (k_ws k) st Hwf Hown Hst).
Qed.

Lemma own_endGame sendThrows endTime (ws : Conn) w :
  timers_own w → timers_own (fst (endGame sendThrows endTime ws w)).
Proof.
  intros Hown. unfold endGame.
  destruct (clients_get w ws) as [st|] eqn:Hget; [|done].
  apply clients_get_Some in Hget as [_ Hst].
  destruct (currentGameId st); [|done].
  destruct (startPosition st), (lastPosition st); simpl;
    (apply (own_set_object _ ws st);
     [by apply own_clearTimeout|by rewrite clearTimeout_objects|by right]).
Qed.

Lemma own_onMessage sendThrows now currentTime insertOneThrows (ws : Conn) raw w :
  wf w → timers_own w →
  timers_own (fst (onMessage sendThrows now currentTime insertOneThrows ws raw w)).
Proof.
  intros Hwf Hown. unfold onMessage.
  destruct (clients_get w ws) as [st|] eqn:Hget; [|done].
  apply clients_get_Some in Hget as [_ Hst].
  destruct (parse_command raw) as [e|command]; [done|].
  pose proof (open_session_timer now currentTime st) as Hopen.
  destruct (open_session now currentTime st) as [opened logOpen]. simpl in Hopen.
  destruct (move command (currentPosition opened)) as [newPosition|]; simpl.
  2: { apply (own_set_object w ws st); [done..|by left]. }
  assert (timers_own (set_object ws (record_move now newPosition opened) w)) as Hown1
    by (apply (own_set_object w ws st); [done..|by left]).
  assert (wf (set_object ws (record_move now newPosition opened) w)) as Hwf1
    by by apply (wf_set_object w ws st).
  destruct (movementsCollection w); simpl; [|done].
  destruct insertOneThrows; [|done].
  pose proof (own_finishMove sendThrows (mkContinuation ws newPosition) _ Hwf1 Hown1)
    as H.
  by destruct (finishMove _ _ _).
Qed.

Lemma own_step w ev w' out :
  wf w → timers_own w → step w ev = Some (w', out) → timers_own w'.
Proof.
  intros Hwf Hown.
  destruct ev as [ws uuid sT|ws raw now ct iT sT|i r sT|t e sT|ws|ws|]; simpl.
  - destruct (objects w !! ws) eqn:Hnew; [done|]. intros [= <- <-].
    intros c c' s t'. simpl. destruct (decide (ws = c)) as [->|Hne].
    + rewrite lookup_insert_eq. by intros [= <-].
    + rewrite lookup_insert_ne by done. apply Hown.
  - pose proof (own_onMessage sT now ct iT ws raw w Hwf Hown) as H.
    destruct (onMessage _ _ _ _ _ _ _). by intros [= <- <-].
  - unfold onInsertSettled. destruct (suspended w !! i) as [k|]; [|done].
    assert (wf (set_suspended (delete i (suspended w)) w)) as Hwf1.
    { apply wf_set_suspended; [done|]. intros k' Hk'.
      apply (wf_suspended w Hwf). by apply list_elem_of_delete_inv in Hk'. }
    pose proof (own_finishMove sT k (set_suspended (delete i (suspended w)) w)
                  Hwf1 Hown) as H.
    destruct (finishMove _ _ _). by intros [= <- <-].
  - unfold onTimer. destruct (timers w !! t) as [ws|]; [|done].
    pose proof (own_endGame sT e ws _ (own_clearTimeout w (Some t) Hown)) as H.
    destruct (endGame _ _ _ _). by intros [= <- <-].
  - unfold onClose. destruct (clients_get w ws); intros [= <- <-]; [|done].
    exact (own_clearTimeout w _ Hown).
  - unfold onError. destruct (clients_get w ws); intros [= <- <-]; [|done].
    exact (own_clearTimeout w _ Hown).
  - by intros [= <- <-].
Qed.

Lemma own_run evs :
  ∀ w w' out, wf w → timers_own w → run w evs = Some (w', out) → timers_own w'.
Proof.
  induction evs as [|ev evs IH]; intros w w' out Hwf Hown; simpl.
  - by intros [= <- <-].
  - destruct (step w ev) as [[w1 out1]|] eqn:Hstep; [|done].
    destruct (run w1 evs) as [[w2 out2]|] eqn:Hrun; [|done].
    intros [= <- <-]. eapply IH; [| |done].
    + by eapply wf_step.
    + by eapply own_step.
Qed.

Lemma reachable_timers_own w : reachable w → timers_own w.
Proof.
  intros (evs & out & Hrun). eapply own_run; [apply wf_initial| |done].
  intros c c' s t H. simpl in H. by rewrite lookup_empty in H.
Qed.

Lemma untouched_refl (c : Conn) w : untouched c w w.
Proof. by split. Qed.

Lemma untouched_trans (c : Conn) w1 w2 w3 :
  untouched c w1 w2 → untouched c w2 w3 → untouched c w1 w3.
Proof.
  intros (Ho & Hc & Ht) (Ho' & Hc' & Ht'). split; [congruence|]. split.
  - by rewrite Hc'.
  - intros t. by rewrite Ht'.
Qed.

Lemma untouched_set_object (ws c : Conn) st w :
  c ≠ ws → untouched c w (set_object ws st w).
Proof. intros Hne. split; [|done]. simpl. by rewrite lookup_insert_ne. Qed.

(** Clearing a timeout recorded for [ws] does not touch another socket. *)
Lemma untouched_clearTimeout (ws c : Conn) st w :
  timers_own w → objects w !! ws = Some st → c ≠ ws →
  untouched c w (clearTimeout (inactivityTimer st) w).
Proof.
  intros Hown Hst Hne. split; [by rewrite clearTimeout_objects|].
  split; [by rewrite clearTimeout_clients|].
  intros t. rewrite clearTimeout_timers. split; [by intros [? _]|].
  intros Hp. split; [done|]. intros Hrec. by apply Hne, (Hown ws c st t).
Qed.

Lemma finishMove_untouched sendThrows k w (c : Conn) :
  wf w → timers_own w → c ≠ k_ws k →
  untouched c w (fst (finishMove sendThrows k w)).
Proof.
  intros Hwf Hown Hne. unfold finishMove.
  destruct (objects w !! k_ws k) as [st|] eqn:Hst; [|apply untouched_refl].
  destruct (untouched_clearTimeout (k_ws k) c st w Hown Hst Hne) as (Ho & Hc & Ht).
  simpl. split; [|split].
  - simpl. rewrite lookup_insert_ne by done. exact Ho.
  - exact Hc.
  - intros t. rewrite <- Ht. rewrite clearTimeout_nextTimer. simpl.
    destruct (decide (nextTimer w = t)) as [<-|Hnt].
    + rewrite lookup_insert_eq. split; [congruence|].
      intros [Hp _]%clearTimeout_timers.
      destruct (wf_owner w Hwf _ _ Hp) as (s & Hs & Hrec).
      pose proof (wf_fresh w Hwf _ _ _ Hs Hrec). lia.
    + by rewrite lookup_insert_ne.
Qed.

Lemma endGame_untouched sendThrows endTime (ws c : Conn) w :
  timers_own w → c ≠ ws →
  untouched c w (fst (endGame sendThrows endTime ws w)).
Proof.
  intros Hown Hne. unfold endGame.
  destruct (clients_get w ws) as [st|] eqn:Hget; [|apply untouched_refl].
  apply clients_get_Some in Hget as [_ Hst].
  destruct (currentGameId st); [|apply untouched_refl].
  destruct (startPosition st), (lastPosition st); simpl;
    (eapply untouched_trans;
     [by apply (untouched_clearTimeout ws c st)|by apply untouched_set_object]).
Qed.

Lemma onMessage_untouched
    sendThrows now currentTime insertOneThrows (ws c : Conn) raw w :
  wf w → timers_own w → c ≠ ws →
  untouched c w (fst (onMessage sendThrows now currentTime insertOneThrows ws raw w)).
Proof.
  intros Hwf Hown Hne. unfold onMessage.
  destruct (clients_get w ws) as [st|] eqn:Hget; [|apply untouched_refl].
  apply clients_get_Some in Hget as [_ Hst].
  destruct (parse_command raw) as [e|command]; [apply untouched_refl|].
  pose proof (open_session_timer now currentTime st) as Hopen.
  destruct (open_session now currentTime st) as [opened logOpen]. simpl in Hopen.
  destruct (move command (currentPosition opened)) as [newPosition|]; simpl.
  2: { by apply untouched_set_object. }
  destruct (movementsCollection w); simpl; [|by apply untouched_set_object].
  destruct insertOneThrows; [|by apply untouched_set_object].
  assert (timers_own (set_object ws (record_move now newPosition opened) w)) as Hown1
    by (apply (own_set_object w ws st); [done..|by left]).
  assert (wf (set_object ws (record_move now newPosition opened) w)) as Hwf1
    by by apply (wf_set_object w ws st).
  pose proof (finishMove_untouched sendThrows (mkContinuation ws newPosition) _ c
                Hwf1 Hown1 Hne) as H.
  destruct (finishMove _ _ _). simpl in *.
  eapply untouched_trans; [|exact H]. by apply untouched_set_object.
Qed.

(** Every message a turn sends goes to the socket of its event. *)
Lemma step_sends_to w ev w' out (ws c : Conn) m :
  step w ev = Some (w', out) →
  event_socket w ev = Some ws →
  (c, m) ∈ sent out → c = ws.
Proof.
  assert (∀ (sT : OutMsg → bool) m0 site,
    (c, m) ∈ sent (trySend sT ws m0 site) → c = ws) as Htry.
  { intros sT m0 site. rewrite sent_trySend. by intros [= -> _]%list_elem_of_singleton. }
  destruct ev as [ws' uuid sT|ws' raw now ct iT sT|i r sT|t e sT|ws'|ws'|]; simpl.
  - destruct (objects w !! ws'); [done|]. intros [= <- <-] [= ->]. apply Htry.
  - intros [= Hstep] [= ->].
    replace out with (snd (onMessage sT now ct iT ws raw w)) by (by rewrite Hstep).
    clear Hstep. unfold onMessage, open_session, finishMove, trySend.
    destruct (clients_get w ws) as [st|]; [|by intros ?%elem_of_nil].
    destruct (parse_command raw) as [err|command].
    { simpl. destruct (sT _); simpl; by intros [= -> _]%list_elem_of_singleton. }
    destruct (currentGameId st);
      (destruct (move command _) as [newPosition|];
       [ destruct (movementsCollection w); [|by intros ?%elem_of_nil];
         destruct iT; [|by intros ?%elem_of_nil];
         simpl; rewrite lookup_insert_eq; simpl; destruct (sT _); simpl;
         by intros [= -> _]%list_elem_of_singleton
       | simpl; destruct (sT _); simpl;
         by intros [= -> _]%list_elem_of_singleton ]).
  - unfold onInsertSettled, finishMove.
    destruct (suspended w !! i) as [k|]; [|done]. simpl.
    destruct (objects w !! k_ws k); intros [= <- <-] [= <-];
      destruct r, (sT _); simpl; by intros [= -> _]%list_elem_of_singleton.
  - unfold onTimer. destruct (timers w !! t) as [ws'|]; [|done].
    unfold endGame, trySend.
    destruct (clients_get (clearTimeout (Some t) w) ws') as [st|];
      [|by intros [= <- <-] _ ?%elem_of_nil].
    destruct (currentGameId st); [|by intros [= <- <-] _ ?%elem_of_nil].
    destruct (startPosition st), (lastPosition st); simpl;
      destruct (sT (GameOver _ _ _ _)), (sT (PositionUpdate _ _));
      intros [= <- <-] [= <-]; simpl;
      intros [[= -> _]|[= -> _]%list_elem_of_singleton]%elem_of_cons; done.
  - unfold onClose. destruct (clients_get w ws'); intros [= <- <-] _;
      by intros ?%elem_of_nil.
  - unfold onError. destruct (clients_get w ws'); intros [= <- <-] _;
      by intros ?%elem_of_nil.
  - done.
Qed.

(** X15: in every world the server can reach, a turn of the event loop
    run for one socket (its connection, a message, a settled write, a
    timeout, its close or error) leaves every other socket as it was: same
    record, same registration, same pending timeouts, and no message sent
    to it. *)
Theorem X15_sockets_do_not_interfere w ev w' out (ws c : Conn) :
  reachable w →
  step w ev = Some (w', out) →
  event_socket w ev = Some ws →
  c ≠ ws →
  untouched c w w' ∧ ∀ m, (c, m) ∉ sent out.
Proof.
  intros Hreach Hstep Hsock Hne.
  pose proof (reachable_wf w Hreach) as Hwf.
  pose proof (reachable_timers_own w Hreach) as Hown.
  split.
  2: { intros m Hin. by apply Hne, (step_sends_to w ev w' out ws c m). }
  destruct ev as [ws' uuid sT|ws' raw now ct iT sT|i r sT|t e sT|ws'|ws'|];
    simpl in Hstep, Hsock.
  - injection Hsock as ->. destruct (objects w !! ws) eqn:Hnew; [done|].
    injection Hstep as <- <-. split; [|split]; simpl.
    + by rewrite lookup_insert_ne.
    + set_solver.
    + done.
  - injection Hsock as ->. injection Hstep as Hstep.
    pose proof (onMessage_untouched sT now ct iT ws c raw w Hwf Hown Hne) as H.
    by rewrite Hstep in H.
  - unfold onInsertSettled in Hstep.
    destruct (suspended w !! i) as [k|]; [|done]. injection Hsock as <-.
    pose proof (finishMove_untouched sT k
                  (set_suspended (delete i (suspended w)) w) c) as H.
    destruct (finishMove _ _ _). injection Hstep as <- <-. apply H; [|done..].
    apply wf_set_suspended; [done|]. intros k' Hk'.
    apply (wf_suspended w Hwf). by apply list_elem_of_delete_inv in Hk'.
  - unfold onTimer in Hstep. rewrite Hsock in Hstep.
    pose proof (endGame_untouched sT e ws c (clearTimeout (Some t) w)
                  (own_clearTimeout w _ Hown) Hne) as H.
    destruct (endGame _ _ _ _). injection Hstep as <- <-.
    eapply untouched_trans; [|exact H].
    split; [by rewrite clearTimeout_objects|].
    split; [by rewrite clearTimeout_clients|].
    intros t'. rewrite clearTimeout_timers. split; [by intros [? _]|].
    intros Hp. split; [done|]. intros [= <-]. congruence.
  - injection Hsock as ->. unfold onClose in Hstep.
    destruct (clients_get w ws) as [st|] eqn:Hget;
      injection Hstep as <- <-; [|apply untouched_refl].
    apply clients_get_Some in Hget as [_ Hst].
    destruct (untouched_clearTimeout ws c st w Hown Hst Hne) as (Ho & Hc & Ht).
    split; [done|]. split; [|done]. simpl. rewrite <- Hc. set_solver.
  - injection Hsock as ->. unfold onError in Hstep.
    destruct (clients_get w ws) as [st|] eqn:Hget;
      injection Hstep as <- <-; [|apply untouched_refl].
    apply clients_get_Some in Hget as [_ Hst].
    destruct (untouched_clearTimeout ws c st w Hown Hst Hne) as (Ho & Hc & Ht).
    split; [done|]. split; [|done]. simpl. rewrite <- Hc. set_solver.
  - done.
Qed.

Lemma X15_sockets_do_not_interfere_witness :
  untouched 0%nat (fst (run_from initial_world two_clients))
            (fst (run_from (fst (run_from initial_world two_clients))
                           [Message 1%nat (say "left") 500 500 true never_throws]))
  ∧ ∀ m, (0%nat, m)
         ∉ sent (snd (run_from (fst (run_from initial_world two_clients))
                               [Message 1%nat (say "left") 500 500 true never_throws])).
Proof.
  apply (X15_sockets_do_not_interfere
           (fst (run_from initial_world two_clients))
           (Message 1%nat (say "left") 500 500 true never_throws)
           (fst (run_from (fst (run_from initial_world two_clients))
                          [Message 1%nat (say "left") 500 500 true never_throws]))
           (snd (run_from (fst (run_from initial_world two_clients))
                          [Message 1%nat (say "left") 500 500 true never_throws]))
           1%nat 0%nat).
  - exists two_clients. eexists. vm_compute. reflexivity.
  - vm_compute. reflexivity.
  - reflexivity.
  - discriminate.
Defined.
